(** * Hierarchical matrices and piecewise-constant spaces of BEM++

    A shallow embedding of

    - [lib/hmat/hmatrix_impl.hpp]: the container [HMatrix], its
      initialisation through a compressor, the permutation between the
      original and the cluster-tree ordering of the degrees of freedom,
      and the block-wise product [apply];
    - [lib/space/piecewise_constant_scalar_space.cpp]: the assignment of
      degrees of freedom and the element variants of
      [PiecewiseConstantScalarSpace].

    The template parameter [ValueType] is a commutative ring with a
    decidable equality; rounding is outside the model. *)

From Stdlib Require Import ZArith Ring.
From stdpp Require Import gmap strings list fin_maps.

(** ** Scalars *)

Class Scalar (R : Type) := {
  sc_zero : R;
  sc_one : R;
  sc_add : R → R → R;
  sc_mul : R → R → R;
  sc_sub : R → R → R;
  sc_opp : R → R;
  sc_eqb : R → R → bool;
  sc_ring : ring_theory sc_zero sc_one sc_add sc_mul sc_sub sc_opp eq;
  sc_eqb_eq : ∀ x y, sc_eqb x y = true ↔ x = y
}.

Declare Scope scalar_scope.
Delimit Scope scalar_scope with S.
Notation "0" := sc_zero : scalar_scope.
Notation "1" := sc_one : scalar_scope.
Infix "+" := sc_add : scalar_scope.
Infix "*" := sc_mul : scalar_scope.
Infix "-" := sc_sub : scalar_scope.
Notation "- x" := (sc_opp x) : scalar_scope.
Infix "=?" := sc_eqb : scalar_scope.

#[export] Instance Scalar_Z : Scalar Z := {|
  sc_zero := 0%Z; sc_one := 1%Z;
  sc_add := Z.add; sc_mul := Z.mul; sc_sub := Z.sub; sc_opp := Z.opp;
  sc_eqb := Z.eqb;
  sc_ring := Zth;
  sc_eqb_eq := Z.eqb_eq
|}.

(** ** Exceptions and stateful methods

    A method that may throw after it has written to its object is a
    function from the state to an outcome and the state it leaves
    behind: what was written before the [throw] stays written. *)

Inductive exception : Type :=
| runtime_error (what : string).

Definition M (S A : Type) : Type := S → (exception + A) * S.

#[export] Instance M_ret {S} : MRet (M S) := λ A a s, (inr a, s).
#[export] Instance M_bind {S} : MBind (M S) := λ A B k m s,
  match m s with
  | (inr a, s') => k a s'
  | (inl e, s') => (inl e, s')
  end.

Definition throw {S A} (e : exception) : M S A := λ s, (inl e, s).
Definition get {S} : M S S := λ s, (inr s, s).
Definition put {S} (s : S) : M S unit := λ _, (inr (), s).
Definition modify {S} (f : S → S) : M S unit := λ s, (inr (), f s).
(** A [const] method: it reads the object and may throw. *)
Definition const_method {S A} (f : S → exception + A) : M S A :=
  λ s, (f s, s).
(** A call that may throw and touches nothing of the state at hand. *)
Definition call {S A} (r : exception + A) : M S A := λ s, (r, s).

(** ** Namespace [hmat] *)

Module hmat.

Inductive RowColSelector := ROW | COL.

(** Modelled from the spec: the enumeration [TransposeMode] is declared
    outside the translated files; [op] is the identity or the transpose. *)
Inductive TransposeMode := NOTRANS | TRANS.

(** Modelled from the spec: the interface of [ClusterTree] used by
    [HMatrix]: the number of degrees of freedom and the two index maps. *)
Record ClusterTree := {
  numberOfDofs : nat;
  mapOriginalDofToHMatDof : nat → nat;
  mapHMatDofToOriginalDof : nat → nat
}.

(** A half-open range [[start, end)] of permuted indices
    ([IndexRangeType], an array of two [size_t]). *)
Definition IndexRangeType : Type := nat * nat.

(** Modelled from the spec: a node of a cluster tree is declared outside
    the translated files; [apply] reads its index range. *)
Record ClusterTreeNode := {
  indexRange : IndexRangeType
}.

(** Modelled from the spec: a node of the block cluster tree is declared
    outside the translated files. It refers to a node of the row and of
    the column cluster tree and carries the admissibility flag. The
    container keys its data by the shared pointer to the node;
    [nodeAddress] is that identity. *)
Record BlockClusterTreeNode := {
  nodeAddress : nat;
  rowClusterTreeNode : ClusterTreeNode;
  columnClusterTreeNode : ClusterTreeNode;
  admissible : bool
}.

#[export] Instance ClusterTreeNode_eq_dec : EqDecision ClusterTreeNode.
Proof. solve_decision. Defined.

#[export] Instance BlockClusterTreeNode_eq_dec : EqDecision BlockClusterTreeNode.
Proof. solve_decision. Defined.

Definition node_to_tuple (n : BlockClusterTreeNode) : nat * (nat * nat) * (nat * nat) * bool :=
  (nodeAddress n, indexRange (rowClusterTreeNode n),
   indexRange (columnClusterTreeNode n), admissible n).

Definition node_of_tuple (t : nat * (nat * nat) * (nat * nat) * bool) : BlockClusterTreeNode :=
  let '(a, r, c, f) := t in
  {| nodeAddress := a;
     rowClusterTreeNode := {| indexRange := r |};
     columnClusterTreeNode := {| indexRange := c |};
     admissible := f |}.

#[export] Instance BlockClusterTreeNode_countable : Countable BlockClusterTreeNode.
Proof.
  apply (inj_countable' node_to_tuple node_of_tuple).
  by intros [a [r] [c] f].
Defined.

(** Modelled from the spec: the interface of [BlockClusterTree] used by
    [HMatrix]: the two cluster trees and the sequence of the leaves. *)
Record BlockClusterTree := {
  rowClusterTree : ClusterTree;
  columnClusterTree : ClusterTree;
  leafNodes : list BlockClusterTreeNode
}.

Definition BlockClusterTree_rows (t : BlockClusterTree) : nat :=
  numberOfDofs (rowClusterTree t).
Definition BlockClusterTree_columns (t : BlockClusterTree) : nat :=
  numberOfDofs (columnClusterTree t).

Section WithValueType.

Context {ValueType : Type} `{!Scalar ValueType}.
Local Open Scope scalar_scope.

(** *** Dense matrices

    [Matrix<ValueType>] with its run-time shape; [coeff m i j] is
    [m(i, j)]. Only the coefficients inside the shape are storage. *)
Record Matrix := {
  rows : nat;
  cols : nat;
  coeff : nat → nat → ValueType
}.

(** Two matrices are the same matrix when they have the same shape and
    the same coefficients inside it. *)
Definition mat_eq (a b : Matrix) : Prop :=
  rows a = rows b ∧ cols a = cols b ∧
  ∀ i j, (i < rows a)%nat → (j < cols a)%nat → coeff a i j = coeff b i j.

(** Freshly allocated storage is not initialised: its content is
    whatever [indeterminate] happens to hold. *)
Variable indeterminate : nat → nat → ValueType.

Definition Matrix_alloc (r c : nat) : Matrix :=
  {| rows := r; cols := c; coeff := indeterminate |}.

(** [m(i, j) = v]. A store outside the shape is undefined behaviour in
    the source; the model drops it. *)
Definition setCoeff (m : Matrix) (i j : nat) (v : ValueType) : Matrix :=
  {| rows := rows m; cols := cols m;
     coeff := λ r c,
       if ((i <? rows m)%nat && (j <? cols m)%nat && (r =? i)%nat && (c =? j)%nat)%bool
       then v else coeff m r c |}.

(** [Y.zeros()]: same shape, every coefficient zero, nothing read. *)
Definition zeros (m : Matrix) : Matrix :=
  {| rows := rows m; cols := cols m; coeff := λ _ _, 0 |}.

(** [Y *= beta]. *)
Definition scale (beta : ValueType) (m : Matrix) : Matrix :=
  {| rows := rows m; cols := cols m; coeff := λ i j, coeff m i j * beta |}.

(** *** Storage

    A [Matrix] keeps its coefficients column by column (the default
    order of Eigen): the coefficient [(i, j)] of [m] lies at the offset
    [i + j * rows m] of its storage. *)

(** The coefficient of [m] that lies at the offset [o]. *)
Definition atOffset (m : Matrix) (o : nat) : ValueType :=
  coeff m (o mod rows m) (o / rows m).

(** [Eigen::Map<Matrix>(m.block(start, 0, n, m.cols()).data(), n, m.cols())]:
    the pointer is the address of [m(start, 0)], the offset [start],
    and the map carries no stride: it reads the storage from there on
    as a matrix of [n] rows laid out column by column, so that its
    coefficient [(i, j)] lies at the offset [start + i + j * n]. It is
    the rows [[start, start + n)] of [m] when [m] has one column or
    when [n] is the number of rows of [m]. *)
Definition mapBlock (m : Matrix) (start n : nat) : Matrix :=
  {| rows := n; cols := cols m;
     coeff := λ i j, atOffset m (start + i + j * n) |}.

(** The map is a view: the matrix [b] computed for it is written to
    the storage of [m], the coefficient [(i, j)] of [b] at the offset
    [start + i + j * rows b]. *)
Definition writeMap (m : Matrix) (start : nat) (b : Matrix) : Matrix :=
  {| rows := rows m; cols := cols m;
     coeff := λ r c,
       let o := (r + c * rows m)%nat in
       if ((start <=? o)%nat && (o <? start + rows b * cols b)%nat
           && (r <? rows m)%nat && (c <? cols m)%nat)%bool
       then coeff b ((o - start) mod rows b) ((o - start) / rows b)
       else coeff m r c |}.

Definition transpose (m : Matrix) : Matrix :=
  {| rows := cols m; cols := rows m; coeff := λ i j, coeff m j i |}.

(** Sums over a list of indices. *)
Definition sumOver {A} (l : list A) (f : A → ValueType) : ValueType :=
  foldr (λ a acc, f a + acc) 0 l.

(** The ordinary dense product. *)
Definition matmul (a b : Matrix) : Matrix :=
  {| rows := rows a; cols := cols b;
     coeff := λ i k, sumOver (seq 0 (cols a)) (λ j, coeff a i j * coeff b j k) |}.

(** *** Block data

    Modelled from the spec: [HMatrixData] and its variants are declared
    in [hmatrix_data.hpp] and [hmatrix_dense_data.hpp], outside the
    translated files. A block is stored densely or as the product of
    two thin factors, and [apply] computes
    [y := alpha * op(block) * x + beta * y], where a zero [alpha] does
    not read [x] and a zero [beta] does not read [y]. *)
Inductive HMatrixData :=
| DenseData (a : Matrix)
| LowRankData (u v : Matrix).

Definition blockContent (d : HMatrixData) : Matrix :=
  match d with
  | DenseData a => a
  | LowRankData u v => matmul u v
  end.

Definition op (trans : TransposeMode) (m : Matrix) : Matrix :=
  match trans with
  | NOTRANS => m
  | TRANS => transpose m
  end.

Definition HMatrixData_apply (d : HMatrixData) (x y : Matrix)
    (trans : TransposeMode) (alpha beta : ValueType) : Matrix :=
  let a := op trans (blockContent d) in
  {| rows := rows y; cols := cols y;
     coeff := λ i k,
       (if alpha =? 0 then 0
        else alpha * sumOver (seq 0 (cols a)) (λ j, coeff a i j * coeff x j k))
       + (if beta =? 0 then 0 else beta * coeff y i k) |}.

(** Modelled from the spec: [HMatrixCompressor::compressBlock] produces
    the data of one leaf, or fails. *)
Definition HMatrixCompressor : Type :=
  BlockClusterTreeNode → exception + HMatrixData.

(** *** The container *)

Record HMatrix := {
  m_blockClusterTree : BlockClusterTree;
  m_hMatrixData : gmap BlockClusterTreeNode HMatrixData
}.

(** [HMatrix(blockClusterTree)] *)
Definition HMatrix_new (blockClusterTree : BlockClusterTree) : HMatrix :=
  {| m_blockClusterTree := blockClusterTree; m_hMatrixData := ∅ |}.

Definition HMatrix_rows (h : HMatrix) : nat :=
  BlockClusterTree_rows (m_blockClusterTree h).

Definition HMatrix_columns (h : HMatrix) : nat :=
  BlockClusterTree_columns (m_blockClusterTree h).

Definition reset : M HMatrix unit :=
  modify (λ h, {| m_blockClusterTree := m_blockClusterTree h;
                  m_hMatrixData := ∅ |}).

(** [m_hMatrixData[node] = nodeData] *)
Definition storeData (node : BlockClusterTreeNode) (nodeData : HMatrixData) :
    M HMatrix unit :=
  modify (λ h, {| m_blockClusterTree := m_blockClusterTree h;
                  m_hMatrixData := <[node := nodeData]> (m_hMatrixData h) |}).

(** A range-based [for] whose body may throw. *)
Fixpoint for_each_m {S A} (l : list A) (body : A → M S unit) : M S unit :=
  match l with
  | [] => mret ()
  | a :: l' => body a;; for_each_m l' body
  end.

Definition initialize (hMatrixCompressor : HMatrixCompressor) : M HMatrix unit :=
  reset;;
  h ← get;
  for_each_m (leafNodes (m_blockClusterTree h)) (λ node,
    nodeData ← call (hMatrixCompressor node);
    storeData node nodeData).

(** [HMatrix(blockClusterTree, hMatrixCompressor)]: the delegating
    constructor. When [initialize] throws, no object is constructed. *)
Definition HMatrix_new_compressed (blockClusterTree : BlockClusterTree)
    (hMatrixCompressor : HMatrixCompressor) : exception + HMatrix :=
  match initialize hMatrixCompressor (HMatrix_new blockClusterTree) with
  | (inr _, h) => inr h
  | (inl e, _) => inl e
  end.

Definition isInitialized (h : HMatrix) : bool :=
  negb (size (m_hMatrixData h) =? 0)%nat.

Definition selectClusterTree (h : HMatrix) (rowOrColumn : RowColSelector) :
    ClusterTree :=
  match rowOrColumn with
  | ROW => rowClusterTree (m_blockClusterTree h)
  | COL => columnClusterTree (m_blockClusterTree h)
  end.

(** The two nested loops that copy row [i] of [mat] to row [target i]
    of [dst]. *)
Definition copyRows (target : nat → nat) (mat dst : Matrix) : Matrix :=
  foldl (λ acc i,
           let permutedIndex := target i in
           foldl (λ acc' j, setCoeff acc' permutedIndex j (coeff mat i j))
                 acc (seq 0 (cols mat)))
        dst (seq 0 (rows mat)).

Definition permuteMatToHMatDofs (h : HMatrix) (mat : Matrix)
    (rowOrColumn : RowColSelector) : exception + Matrix :=
  let permutedDofs := Matrix_alloc (rows mat) (cols mat) in
  let clusterTree := selectClusterTree h rowOrColumn in
  if negb (numberOfDofs clusterTree =? rows mat)%nat
  then inl (runtime_error
         "HMatrix::permuteMatToHMatDofs: Input matrix has wrong number of rows.")
  else inr (copyRows (mapOriginalDofToHMatDof clusterTree) mat permutedDofs).

Definition permuteMatToOriginalDofs (h : HMatrix) (mat : Matrix)
    (rowOrColumn : RowColSelector) : exception + Matrix :=
  let originalDofs := Matrix_alloc (rows mat) (cols mat) in
  let clusterTree := selectClusterTree h rowOrColumn in
  if negb (numberOfDofs clusterTree =? rows mat)%nat
  then inl (runtime_error
         "HMatrix::permuteMatToOriginalDofs: Input matrix has wrong number of rows.")
  else inr (copyRows (mapHMatDofToOriginalDof clusterTree) mat originalDofs).

(** The body of the [for_each] over [m_hMatrixData] in [apply]: one
    leaf reads the map laid over the permuted input at the start of its
    input range and accumulates into the map laid over the permuted
    output at the start of its output range. The undeclared [xData] and
    [yData] of the source are the captured [xPermuted] and
    [yPermuted]. *)
Definition applyLeaf (trans : TransposeMode) (alpha : ValueType)
    (xPermuted : Matrix) (yPermuted : Matrix)
    (elem : BlockClusterTreeNode * HMatrixData) : Matrix :=
  let '(inputRange, outputRange) :=
    match trans with
    | NOTRANS => (indexRange (columnClusterTreeNode elem.1),
                  indexRange (rowClusterTreeNode elem.1))
    | TRANS => (indexRange (rowClusterTreeNode elem.1),
                indexRange (columnClusterTreeNode elem.1))
    end in
  let xDataBlock := mapBlock xPermuted inputRange.1 (inputRange.2 - inputRange.1) in
  let yDataBlock := mapBlock yPermuted outputRange.1 (outputRange.2 - outputRange.1) in
  writeMap yPermuted outputRange.1
    (HMatrixData_apply elem.2 xDataBlock yDataBlock trans alpha 1).

(** [apply(X, Y, trans, alpha, beta)]; the state is the caller's [Y],
    which is scaled in place before anything can throw. The leaves are
    visited in the order in which the container lists them. *)
Definition apply (h : HMatrix) (X : Matrix) (trans : TransposeMode)
    (alpha beta : ValueType) : M Matrix unit :=
  modify (λ Y, if beta =? 0 then zeros Y else scale beta Y);;
  Y ← get;
  xPermuted ← call (match trans with
                   | NOTRANS => permuteMatToHMatDofs h X COL
                   | TRANS => permuteMatToHMatDofs h X ROW
                   end);
  yPermuted ← call (match trans with
                   | NOTRANS => permuteMatToHMatDofs h Y ROW
                   | TRANS => permuteMatToHMatDofs h Y COL
                   end);
  let yPermuted' :=
    foldl (applyLeaf trans alpha xPermuted) yPermuted
          (map_to_list (m_hMatrixData h)) in
  Y' ← call (permuteMatToOriginalDofs h yPermuted' ROW);
  put Y'.

End WithValueType.

Arguments Matrix ValueType : clear implicits.
Arguments HMatrixData ValueType : clear implicits.
Arguments HMatrixCompressor ValueType : clear implicits.
Arguments HMatrix ValueType : clear implicits.

(** *** Invariants of the trees *)

(** The two index maps of a cluster tree are total on
    [[0, numberOfDofs)] and inverse to each other there. *)
Definition ClusterTree_bijective (c : ClusterTree) : Prop :=
  ∀ i, i < numberOfDofs c →
    mapOriginalDofToHMatDof c i < numberOfDofs c ∧
    mapHMatDofToOriginalDof c i < numberOfDofs c ∧
    mapHMatDofToOriginalDof c (mapOriginalDofToHMatDof c i) = i ∧
    mapOriginalDofToHMatDof c (mapHMatDofToOriginalDof c i) = i.

Definition inRange (r : IndexRangeType) (i : nat) : bool :=
  (r.1 <=? i) && (i <? r.2).

Definition rowRange (n : BlockClusterTreeNode) : IndexRangeType :=
  indexRange (rowClusterTreeNode n).
Definition columnRange (n : BlockClusterTreeNode) : IndexRangeType :=
  indexRange (columnClusterTreeNode n).

(** The leaf [n] holds the entry [(i, j)] of the permuted operator. *)
Definition covers (n : BlockClusterTreeNode) (i j : nat) : bool :=
  inRange (rowRange n) i && inRange (columnRange n) j.

(** The leaves are distinct nodes, their ranges lie in the index sets,
    and their rectangles tile the whole rectangle: every entry lies in
    exactly one leaf. *)
Definition leaves_tile (t : BlockClusterTree) : Prop :=
  NoDup (leafNodes t) ∧
  (∀ n, n ∈ leafNodes t →
     (rowRange n).1 ≤ (rowRange n).2 ≤ BlockClusterTree_rows t ∧
     (columnRange n).1 ≤ (columnRange n).2 ≤ BlockClusterTree_columns t) ∧
  (∀ i j, i < BlockClusterTree_rows t → j < BlockClusterTree_columns t →
     length (filter (λ n, covers n i j = true) (leafNodes t)) = 1).

Definition BlockClusterTree_wf (t : BlockClusterTree) : Prop :=
  ClusterTree_bijective (rowClusterTree t) ∧
  ClusterTree_bijective (columnClusterTree t) ∧
  leaves_tile t.

(** The side of the operator whose ordering the input of [apply] is
    brought to, and the side whose ordering the output is brought to. *)
Definition readSide (trans : TransposeMode) : RowColSelector :=
  match trans with
  | NOTRANS => COL
  | TRANS => ROW
  end.

Definition writeSide (trans : TransposeMode) : RowColSelector :=
  match trans with
  | NOTRANS => ROW
  | TRANS => COL
  end.

Section Stored.

Context {ValueType : Type} `{!Scalar ValueType}.

(** [d] is the block of the operator [A] (given in the original
    ordering) that belongs to the leaf [n]. *)
Definition isBlockOf (t : BlockClusterTree) (A : Matrix ValueType)
    (n : BlockClusterTreeNode) (d : Matrix ValueType) : Prop :=
  rows d = (rowRange n).2 - (rowRange n).1 ∧
  cols d = (columnRange n).2 - (columnRange n).1 ∧
  ∀ i j, i < rows d → j < cols d →
    coeff d i j =
    coeff A (mapHMatDofToOriginalDof (rowClusterTree t) ((rowRange n).1 + i))
            (mapHMatDofToOriginalDof (columnClusterTree t) ((columnRange n).1 + j)).

(** Every leaf of the tree of [h], and nothing else, has data, and the
    data of a leaf is the exact dense block of [A]. *)
Definition storesDense (h : HMatrix ValueType) (A : Matrix ValueType) : Prop :=
  (∀ n, n ∈ leafNodes (m_blockClusterTree h) ↔ is_Some (m_hMatrixData h !! n)) ∧
  (∀ n d, m_hMatrixData h !! n = Some d →
     ∃ a, d = DenseData a ∧ isBlockOf (m_blockClusterTree h) A n a).

(** Every leaf of the tree of [h] has data. *)
Definition everyLeafHasData (h : HMatrix ValueType) : Prop :=
  ∀ n, n ∈ leafNodes (m_blockClusterTree h) → is_Some (m_hMatrixData h !! n).

(** The compressor that stores every leaf as the exact dense block of
    the operator [A]. *)
Definition denseCompressor (t : BlockClusterTree) (A : Matrix ValueType) :
    HMatrixCompressor ValueType :=
  λ n, inr (DenseData
    {| rows := (rowRange n).2 - (rowRange n).1;
       cols := (columnRange n).2 - (columnRange n).1;
       coeff := λ i j,
         coeff A (mapHMatDofToOriginalDof (rowClusterTree t) ((rowRange n).1 + i))
                 (mapHMatDofToOriginalDof (columnClusterTree t) ((columnRange n).1 + j)) |}).

(** What one leaf is to add to the entry [(r, k)] of the permuted
    output: its block times its rows of the permuted input. *)
Definition leafContribution (trans : TransposeMode) (alpha : ValueType)
    (xPermuted : Matrix ValueType)
    (elem : BlockClusterTreeNode * HMatrixData ValueType) (r k : nat) : ValueType :=
  let '(inputRange, outputRange) :=
    match trans with
    | NOTRANS => (columnRange elem.1, rowRange elem.1)
    | TRANS => (rowRange elem.1, columnRange elem.1)
    end in
  let a := op trans (blockContent elem.2) in
  if inRange outputRange r
  then (if alpha =? 0 then 0
        else alpha * sumOver (seq 0 (cols a))
               (λ j, coeff a (r - outputRange.1) j
                     * coeff xPermuted (inputRange.1 + j) k))%S
  else 0%S.

(** What one leaf does add to the entry [(r, k)] of a permuted output
    of [R] rows and [C] columns in the loop of [apply], through the
    maps over the storage. *)
Definition leafAdds (trans : TransposeMode) (alpha : ValueType)
    (xPermuted : Matrix ValueType) (R C : nat)
    (elem : BlockClusterTreeNode * HMatrixData ValueType) (r k : nat) : ValueType :=
  let '(inputRange, outputRange) :=
    match trans with
    | NOTRANS => (columnRange elem.1, rowRange elem.1)
    | TRANS => (rowRange elem.1, columnRange elem.1)
    end in
  let a := op trans (blockContent elem.2) in
  let n := outputRange.2 - outputRange.1 in
  let o := r + k * R in
  if (outputRange.1 <=? o) && (o <? outputRange.1 + n * C)
  then (if alpha =? 0 then 0
        else alpha * sumOver (seq 0 (cols a))
               (λ j, coeff a ((o - outputRange.1) mod n) j
                     * coeff (mapBlock xPermuted inputRange.1
                                (inputRange.2 - inputRange.1))
                             j ((o - outputRange.1) / n)))%S
  else 0%S.

(** The data that the compressor produces for a leaf, when it succeeds. *)
Definition compressed (c : HMatrixCompressor ValueType)
    (n : BlockClusterTreeNode) : option (HMatrixData ValueType) :=
  match c n with
  | inr d => Some d
  | inl _ => None
  end.

(** The leaves that come before the first leaf on which the compressor
    fails. *)
Fixpoint compressedLeaves (c : HMatrixCompressor ValueType)
    (l : list BlockClusterTreeNode) : list BlockClusterTreeNode :=
  match l with
  | [] => []
  | n :: l' =>
      match c n with
      | inr _ => n :: compressedLeaves c l'
      | inl _ => []
      end
  end.

(** The first failure of the compressor over the leaves, if any. *)
Fixpoint firstFailure (c : HMatrixCompressor ValueType)
    (l : list BlockClusterTreeNode) : option exception :=
  match l with
  | [] => None
  | n :: l' =>
      match c n with
      | inr _ => firstFailure c l'
      | inl e => Some e
      end
  end.

(** Following the words of the refinement claim: construct the matrix
    from the tree alone, then call [initialize] on it. *)
Definition construct_then_initialize (t : BlockClusterTree)
    (c : HMatrixCompressor ValueType) : (exception + unit) * HMatrix ValueType :=
  initialize c (HMatrix_new t).

End Stored.

End hmat.

(** ** Namespace [Bempp] *)

Module Bempp.

(** The grid layer is declared outside the translated files; the part
    of its interface that the space uses is taken as it is called. Of a
    [GeometryType] the space asks the dimension and whether it is a
    triangle. *)
Record GeometryType := {
  dim : nat;
  isTriangle : bool
}.

(** [Entity<0>]: an element of the grid. *)
Record Entity := {
  entityId : nat;
  type : GeometryType
}.

Abbreviation EntityIndex := nat.
Abbreviation GlobalDofIndex := Z.
Abbreviation ElementVariant := Z.

Record LocalDof := {
  entityIndex : EntityIndex;
  dofIndex : nat
}.

(** A view of the grid: the elements in the order in which
    [entityIterator<0>()] visits them, [entityCount(codim)], and the
    index that [elementMapper()] gives to an element. *)
Record GridView := {
  entities : list Entity;
  entityCount : nat → nat;
  elementMapper : Entity → EntityIndex
}.

(** [GridSegment::contains(codim, index)] *)
Record GridSegment := {
  contains : nat → EntityIndex → bool
}.

Record PiecewiseConstantScalarSpace := {
  m_view : GridView;
  m_local2globalDofs : list (list GlobalDofIndex);
  m_global2localDofs : list (list LocalDof)
}.

Definition elementVariant (element : Entity) : ElementVariant :=
  let type := type element in
  if (dim type =? 1)%nat then 2%Z
  else if isTriangle type then 3%Z
  else 4%Z.

Definition setElementVariant (element : Entity) (variant : ElementVariant) :
    M PiecewiseConstantScalarSpace unit :=
  if negb (variant =? elementVariant element)%Z
  then throw (runtime_error
         "PiecewiseConstantScalarSpace::setElementVariant(): invalid variant")
  else mret ().

(** The variables that the loop of [assignDofsImpl] updates. *)
Record AssignState := {
  localDofs : list LocalDof;
  globalDofs : list GlobalDofIndex;
  globalDofCount_ : Z;
  local2global : list (list GlobalDofIndex);
  global2local : list (list LocalDof)
}.

(** One turn of the [while] loop, at the element [e]. A store past the
    end of [m_local2globalDofs] is undefined behaviour in the source;
    the model drops it. The lines written to [std::cout] are not part
    of the state. *)
Definition assignStep (view : GridView) (segment : GridSegment)
    (st : AssignState) (e : Entity) : AssignState :=
  let index := elementMapper view e in
  if contains segment 0 index then
    let localDofs' := <[0%nat := {| entityIndex := index; dofIndex := 0 |}]> (localDofs st) in
    let globalDofs' := <[0%nat := globalDofCount_ st]> (globalDofs st) in
    {| localDofs := localDofs';
       globalDofs := globalDofs';
       globalDofCount_ := (globalDofCount_ st + 1)%Z;
       local2global := <[index := globalDofs']> (local2global st);
       global2local := global2local st ++ [localDofs'] |}
  else
    let globalDofs' := <[0%nat := (-1)%Z]> (globalDofs st) in
    {| localDofs := localDofs st;
       globalDofs := globalDofs';
       globalDofCount_ := globalDofCount_ st;
       local2global := <[index := globalDofs']> (local2global st);
       global2local := global2local st |}.

(** The variables before the loop: two vectors of one element each,
    the cleared and resized [m_local2globalDofs], the cleared
    [m_global2localDofs] and the counter at zero. *)
Definition assignState0 (elementCount : nat) : AssignState :=
  {| localDofs := [ {| entityIndex := 0; dofIndex := 0 |} ];
     globalDofs := [0%Z];
     globalDofCount_ := 0%Z;
     local2global := replicate elementCount [];
     global2local := [] |}.

Definition assignDofsImpl (segment : GridSegment) :
    M PiecewiseConstantScalarSpace unit :=
  modify (λ sp,
    let view := m_view sp in
    let elementCount := entityCount view 0 in
    let st := foldl (assignStep view segment) (assignState0 elementCount)
                    (entities view) in
    {| m_view := view;
       m_local2globalDofs := local2global st;
       m_global2localDofs := global2local st |}).

(** [PiecewiseConstantScalarSpace(grid, segment)], from the leaf view of
    the grid. *)
Definition PiecewiseConstantScalarSpace_new (view : GridView)
    (segment : GridSegment) : PiecewiseConstantScalarSpace :=
  (assignDofsImpl segment
     {| m_view := view; m_local2globalDofs := []; m_global2localDofs := [] |}).2.

Definition globalDofCount (sp : PiecewiseConstantScalarSpace) : nat :=
  length (m_global2localDofs sp).

Definition flatLocalDofCount (sp : PiecewiseConstantScalarSpace) : nat :=
  entityCount (m_view sp) 0.

(** [getGlobalDofs(element, dofs)]; reading past the end is undefined
    behaviour in the source, [None] here. *)
Definition getGlobalDofs (sp : PiecewiseConstantScalarSpace) (element : Entity) :
    option (list GlobalDofIndex) :=
  m_local2globalDofs sp !! elementMapper (m_view sp) element.

(** *** Invariant of the view *)

Definition inSegment (view : GridView) (segment : GridSegment) (e : Entity) : bool :=
  contains segment 0 (elementMapper view e).

(** The mapper numbers the elements of the view without repetition and
    below [entityCount(0)]. *)
Definition GridView_wf (view : GridView) : Prop :=
  NoDup (elementMapper view <$> entities view) ∧
  ∀ e, e ∈ entities view → elementMapper view e < entityCount view 0.

(** The number of elements of the segment among the first [k] elements
    that the iterator visits. *)
Definition containedBefore (view : GridView) (segment : GridSegment) (k : nat) : nat :=
  length (filter (λ e, inSegment view segment e = true) (take k (entities view))).

(** *** From global to local degrees of freedom *)

(** [m_global2localDofs[g]] for a signed index [g]; reading outside the
    vector is undefined behaviour in the source, [None] here. *)
Definition atGlobalDof (sp : PiecewiseConstantScalarSpace) (g : GlobalDofIndex) :
    option (list LocalDof) :=
  if (g <? 0)%Z then None else m_global2localDofs sp !! Z.to_nat g.

(** [global2localDofs(globalDofs, localDofs)]: the output is resized to
    the length of the input and filled entry by entry. *)
Definition global2localDofs (sp : PiecewiseConstantScalarSpace)
    (globalDofs : list GlobalDofIndex) : option (list (list LocalDof)) :=
  mapM (atGlobalDof sp) globalDofs.

(** [flatLocal2localDofs(flatLocalDofs, localDofs)]: every element has
    one local degree of freedom, number 0. *)
Definition flatLocal2localDofs (flatLocalDofs : list nat) : list LocalDof :=
  (λ f, {| entityIndex := f; dofIndex := 0 |}) <$> flatLocalDofs.

End Bempp.

(** ** [PiecewiseLinearContinuousScalarSpace], of namespace [Bempp]

    [lib/space/piecewise_linear_continuous_scalar_space.cpp]. Its
    exceptions are of three classes, and all its methods are given as
    functions of the object. *)

Module BemppLinear.

Inductive exn : Type :=
| invalid_argument (what : string)
| runtime_error (what : string)
| NotImplementedError (what : string).

(** The grid layer is declared outside the translated files; the part
    of its interface that the space calls is taken as it is called. Of
    a [GeometryType] the space asks three questions. *)
Record GeometryType := {
  isLine : bool;
  isTriangle : bool;
  isQuadrilateral : bool
}.

#[export] Instance GeometryType_eq_dec : EqDecision GeometryType.
Proof. solve_decision. Defined.

#[export] Instance GeometryType_countable : Countable GeometryType.
Proof.
  apply (inj_countable'
           (λ t, (isLine t, isTriangle t, isQuadrilateral t))
           (λ '(l, t, q), {| isLine := l; isTriangle := t; isQuadrilateral := q |})).
  by intros [].
Defined.

(** [Entity<0>] with [type()] and [subEntityCount<codim>()]. *)
Record Entity := {
  entityId : nat;
  type : GeometryType;
  subEntityCount : nat → nat
}.

(** [EntityIndex(type, index)], the key of the local-to-global map. *)
Abbreviation EntityIndex := (GeometryType * nat)%type.

(** Indices handed out by the index set are used as positions of a
    vector; they are natural numbers here. *)
Abbreviation GlobalDofIndex := nat.
Abbreviation ElementVariant := Z.

Record LocalDof := {
  entityIndex : EntityIndex;
  dofIndex : nat
}.

Record IndexSet := {
  IndexSet_entityIndex : Entity → nat;
  IndexSet_subEntityIndex : Entity → nat → nat → nat
}.

Record GridView := {
  entities : list Entity;
  entityCount : nat → nat;
  indexSet : IndexSet
}.

Inductive Basis := m_triangleBasis | m_quadrilateralBasis | m_lineBasis.

Record PiecewiseLinearContinuousScalarSpace := {
  m_gridDim : nat;
  m_view : GridView;
  m_local2globalDofs : gmap EntityIndex (list GlobalDofIndex);
  m_global2localDofs : list (list LocalDof)
}.

(** [PiecewiseLinearContinuousScalarSpace(grid)], from the dimension and
    the leaf view of the grid. *)
Definition PiecewiseLinearContinuousScalarSpace_new (gridDim : nat)
    (leafView : GridView) : exn + PiecewiseLinearContinuousScalarSpace :=
  if negb (gridDim =? 1) && negb (gridDim =? 2)
  then inl (invalid_argument
         "PiecewiseLinearContinuousScalarSpace::PiecewiseLinearContinuousScalarSpace(): only 1- and 2-dimensional grids are supported")
  else inr {| m_gridDim := gridDim; m_view := leafView;
              m_local2globalDofs := ∅; m_global2localDofs := [] |}.

Definition domainDimension (sp : PiecewiseLinearContinuousScalarSpace) : nat :=
  m_gridDim sp.

Definition codomainDimension (sp : PiecewiseLinearContinuousScalarSpace) : nat := 1.

Definition elementVariant (element : Entity) : exn + ElementVariant :=
  let type := type element in
  if isLine type then inr 2%Z
  else if isTriangle type then inr 3%Z
  else if isQuadrilateral type then inr 4%Z
  else inl (runtime_error
         "PiecewiseLinearContinuousScalarSpace::elementVariant(): invalid geometry type, this shouldn't happen!").

Definition setElementVariant (element : Entity) (variant : ElementVariant)
    (sp : PiecewiseLinearContinuousScalarSpace) :
    (exn + unit) * PiecewiseLinearContinuousScalarSpace :=
  match elementVariant element with
  | inl e => (inl e, sp)
  | inr v =>
      if negb (variant =? v)%Z
      then (inl (runtime_error
              "PiecewiseLinearContinuousScalarSpace::setElementVariant(): invalid variant"),
            sp)
      else (inr (), sp)
  end.

(** [basis(element)]: every case of the [switch] returns. *)
Definition basis (element : Entity) : exn + option Basis :=
  match elementVariant element with
  | inl e => inl e
  | inr v =>
      inr (if (v =? 3)%Z then Some m_triangleBasis
           else if (v =? 4)%Z then Some m_quadrilateralBasis
           else if (v =? 2)%Z then Some m_lineBasis
           else None)
  end.

(** The [switch] of [getBases]: no case ends in a [break], so control
    falls from the matching label through all the assignments below
    it. [b] is [bases[i]]. *)
Definition getBases_switch (v : ElementVariant) (b : option Basis) : option Basis :=
  let b := if (v =? 3)%Z then Some m_triangleBasis else b in
  let b := if (v =? 3)%Z || (v =? 4)%Z then Some m_quadrilateralBasis else b in
  let b := if (v =? 3)%Z || (v =? 4)%Z || (v =? 2)%Z then Some m_lineBasis else b in
  b.

(** [getBases(elements, bases)]. The vector [bases] is taken by value:
    the function works on its own copy, which is returned here to be
    looked at, and nothing is written to the vector of the caller. A
    resized vector holds null pointers, [None]. *)
Definition getBases (elements : list Entity) (bases : list (option Basis)) :
    exn + list (option Basis) :=
  let elementCount := length elements in
  let bases := resize elementCount None bases in
  foldl (λ acc i,
           match acc with
           | inl e => inl e
           | inr bases =>
               match elements !! i with
               | None => inr bases
               | Some element =>
                   match elementVariant element with
                   | inl e => inl e
                   | inr v => inr (alter (getBases_switch v) i bases)
                   end
               end
           end)
        (inr bases) (seq 0 elementCount).

(** The key under which an element is filed. *)
Definition elementIndexOf (view : GridView) (element : Entity) : EntityIndex :=
  (type element, IndexSet_entityIndex (indexSet view) element).

Definition vertexCountOf (gridDim : nat) (element : Entity) : nat :=
  if (gridDim =? 1) then subEntityCount element 1 else subEntityCount element 2.

(** The loop over the vertices of one element: [globalDofs] is the
    vector of the element in the local-to-global map. A [push_back]
    past the end of [m_global2localDofs] is undefined behaviour in the
    source; the model drops it. *)
Definition assignVertices (view : GridView) (gridDim : nat) (element : Entity)
    (vertexCount : nat)
    (st : list GlobalDofIndex * list (list LocalDof)) :
    list GlobalDofIndex * list (list LocalDof) :=
  foldl (λ '(globalDofs, global2local) i,
           let globalDofIndex :=
             IndexSet_subEntityIndex (indexSet view) element i gridDim in
           (<[i := globalDofIndex]> globalDofs,
            alter (λ l, l ++ [ {| entityIndex := elementIndexOf view element;
                                  dofIndex := i |} ])
                  globalDofIndex global2local))
        st (seq 0 vertexCount).

(** One turn of the [while] loop of [assignDofs]. *)
Definition assignElement (view : GridView) (gridDim : nat)
    (st : gmap EntityIndex (list GlobalDofIndex) * list (list LocalDof))
    (element : Entity) :
    gmap EntityIndex (list GlobalDofIndex) * list (list LocalDof) :=
  let elementIndex := elementIndexOf view element in
  let vertexCount := vertexCountOf gridDim element in
  let globalDofs := resize vertexCount 0 (default [] (st.1 !! elementIndex)) in
  let '(globalDofs', global2local') :=
    assignVertices view gridDim element vertexCount (globalDofs, st.2) in
  (<[elementIndex := globalDofs']> st.1, global2local').

Definition assignDofs (sp : PiecewiseLinearContinuousScalarSpace) :
    PiecewiseLinearContinuousScalarSpace :=
  let gridDim := domainDimension sp in
  let globalDofCount_ := entityCount (m_view sp) (m_gridDim sp) in
  let st := foldl (assignElement (m_view sp) gridDim)
                  (∅, replicate globalDofCount_ []) (entities (m_view sp)) in
  {| m_gridDim := m_gridDim sp; m_view := m_view sp;
     m_local2globalDofs := st.1; m_global2localDofs := st.2 |}.

Definition globalDofCount (sp : PiecewiseLinearContinuousScalarSpace) : nat :=
  length (m_global2localDofs sp).

Definition dofsAssigned (sp : PiecewiseLinearContinuousScalarSpace) : bool :=
  let gridDim := domainDimension sp in
  (globalDofCount sp =? entityCount (m_view sp) gridDim).

(** [globalDofs(element, dofs)]: the vector of the element, or the
    empty vector when the element has none. *)
Definition globalDofs (sp : PiecewiseLinearContinuousScalarSpace) (element : Entity) :
    list GlobalDofIndex :=
  match m_local2globalDofs sp !! elementIndexOf (m_view sp) element with
  | Some dofs => dofs
  | None => []
  end.

(** [global2localDofs(globalDofs, localDofs)]; reading outside
    [m_global2localDofs] is undefined behaviour in the source, [None]
    here. *)
Definition global2localDofs (sp : PiecewiseLinearContinuousScalarSpace)
    (globalDofs : list GlobalDofIndex) : option (list (list LocalDof)) :=
  mapM (λ g, m_global2localDofs sp !! g) globalDofs.

Definition globalDofPositions (sp : PiecewiseLinearContinuousScalarSpace) : exn + unit :=
  inl (NotImplementedError
    "PiecewiseLinearContinuousScalarSpace::globalDofPositions(): not implemented").

(** *** Invariant of the view *)

(** No two elements of the view are filed under the same key, and every
    vertex index lies below the number of vertices. *)
Definition GridView_wf (gridDim : nat) (view : GridView) : Prop :=
  NoDup (elementIndexOf view <$> entities view) ∧
  ∀ e i, e ∈ entities view → i < vertexCountOf gridDim e →
    IndexSet_subEntityIndex (indexSet view) e i gridDim < entityCount view gridDim.

(** The global indices of the vertices of an element, in local order. *)
Definition vertexIndices (view : GridView) (gridDim : nat) (element : Entity) :
    list GlobalDofIndex :=
  (λ i, IndexSet_subEntityIndex (indexSet view) element i gridDim)
    <$> seq 0 (vertexCountOf gridDim element).

(** The local degrees of freedom, over the elements [es] in their
    order and the vertices of each in local order, whose vertex has the
    global index [g]. *)
Definition localDofsAt (view : GridView) (gridDim : nat) (es : list Entity)
    (g : GlobalDofIndex) : list LocalDof :=
  e ← es;
  (λ i, {| entityIndex := elementIndexOf view e; dofIndex := i |})
    <$> filter (λ i, IndexSet_subEntityIndex (indexSet view) e i gridDim = g)
               (seq 0 (vertexCountOf gridDim e)).

End BemppLinear.

(** ** Concrete inputs

    Small operators over [Z] on which the model is run. *)

Module Examples.

Import hmat.

Definition ofList (r c : nat) (l : list (list Z)) : Matrix Z :=
  {| rows := r; cols := c; coeff := λ i j, nth j (nth i l []) 0%Z |}.

Definition toList (m : Matrix Z) : list (list Z) :=
  map (λ i, map (λ j, coeff m i j) (seq 0 (cols m))) (seq 0 (rows m)).

Definition garbage : nat → nat → Z := λ _ _, 77%Z.

Definition swap2 (i : nat) : nat :=
  match i with
  | 0 => 1
  | 1 => 0
  | _ => i
  end.

(** Two degrees of freedom kept in their order, and two that the tree
    stores swapped. *)
Definition keepTree : ClusterTree :=
  {| numberOfDofs := 2;
     mapOriginalDofToHMatDof := λ i, i;
     mapHMatDofToOriginalDof := λ i, i |}.

Definition swapTree : ClusterTree :=
  {| numberOfDofs := 2;
     mapOriginalDofToHMatDof := swap2;
     mapHMatDofToOriginalDof := swap2 |}.

Definition oneTree : ClusterTree :=
  {| numberOfDofs := 1;
     mapOriginalDofToHMatDof := λ i, i;
     mapHMatDofToOriginalDof := λ i, i |}.

Definition leaf (address : nat) (r c : IndexRangeType) : BlockClusterTreeNode :=
  {| nodeAddress := address;
     rowClusterTreeNode := {| indexRange := r |};
     columnClusterTreeNode := {| indexRange := c |};
     admissible := false |}.

(** A 2 x 2 operator in three leaves; the columns are stored swapped. *)
Definition tree22 : BlockClusterTree :=
  {| rowClusterTree := keepTree;
     columnClusterTree := swapTree;
     leafNodes := [leaf 0 (0, 1) (0, 1); leaf 1 (0, 1) (1, 2); leaf 2 (1, 2) (0, 2)] |}.

Definition A22 : Matrix Z := ofList 2 2 [[1; 2]; [3; 4]]%Z.

Definition h22 : HMatrix Z :=
  (initialize (denseCompressor tree22 A22) (HMatrix_new tree22)).2.

(** The transposed operator, stored on its own: the trees and the
    ranges change sides. *)
Definition tree22T : BlockClusterTree :=
  {| rowClusterTree := swapTree;
     columnClusterTree := keepTree;
     leafNodes := [leaf 0 (0, 1) (0, 1); leaf 1 (1, 2) (0, 1); leaf 2 (0, 2) (1, 2)] |}.

Definition h22T : HMatrix Z :=
  (initialize (denseCompressor tree22T (transpose A22)) (HMatrix_new tree22T)).2.

(** A 2 x 1 operator in one leaf. *)
Definition tree21 : BlockClusterTree :=
  {| rowClusterTree := keepTree;
     columnClusterTree := oneTree;
     leafNodes := [leaf 0 (0, 2) (0, 1)] |}.

Definition A21 : Matrix Z := ofList 2 1 [[5]; [6]]%Z.

Definition h21 : HMatrix Z :=
  (initialize (denseCompressor tree21 A21) (HMatrix_new tree21)).2.

Definition I2 : Matrix Z := ofList 2 2 [[1; 0]; [0; 1]]%Z.

(** A compressor that fails on the leaf at address 1. *)
Definition failsOnSecond : HMatrixCompressor Z :=
  λ n, if (nodeAddress n =? 1)%nat
       then inl (runtime_error "compression failed")
       else denseCompressor tree22 A22 n.

(** A 2 x 2 operator whose rows and columns are both stored swapped. *)
Definition tree22S : BlockClusterTree :=
  {| rowClusterTree := swapTree;
     columnClusterTree := swapTree;
     leafNodes := [leaf 0 (0, 1) (0, 2); leaf 1 (1, 2) (0, 1); leaf 2 (1, 2) (1, 2)] |}.

Definition h22S : HMatrix Z :=
  (initialize (denseCompressor tree22S A22) (HMatrix_new tree22S)).2.

(** A view of three elements, a segment and a triangle, of which the
    segment below holds the first and the last. *)
Definition triangle : Bempp.GeometryType :=
  {| Bempp.dim := 2; Bempp.isTriangle := true |}.

Definition view3 : Bempp.GridView :=
  {| Bempp.entities :=
       [ {| Bempp.entityId := 2; Bempp.type := triangle |};
         {| Bempp.entityId := 0; Bempp.type := triangle |};
         {| Bempp.entityId := 1; Bempp.type := triangle |} ];
     Bempp.entityCount := λ codim, match codim with 0 => 3 | _ => 0 end;
     Bempp.elementMapper := Bempp.entityId |}.

Definition segment3 : Bempp.GridSegment :=
  {| Bempp.contains := λ codim index, negb (index =? 0)%nat |}.

(** Two triangles that share an edge, over four vertices. *)
Definition triangleL : BemppLinear.GeometryType :=
  {| BemppLinear.isLine := false;
     BemppLinear.isTriangle := true;
     BemppLinear.isQuadrilateral := false |}.

Definition linElement (id : nat) : BemppLinear.Entity :=
  {| BemppLinear.entityId := id;
     BemppLinear.type := triangleL;
     BemppLinear.subEntityCount := λ codim, match codim with 0 => 1 | _ => 3 end |}.

Definition linView : BemppLinear.GridView :=
  {| BemppLinear.entities := [linElement 0; linElement 1];
     BemppLinear.entityCount :=
       λ codim, match codim with 0 => 2 | 1 => 5 | 2 => 4 | _ => 0 end;
     BemppLinear.indexSet :=
       {| BemppLinear.IndexSet_entityIndex := BemppLinear.entityId;
          BemppLinear.IndexSet_subEntityIndex :=
            λ e i codim,
              nth i (match BemppLinear.entityId e with
                     | 0 => [0; 1; 2]
                     | _ => [1; 3; 2]
                     end) 0 |} |}.

Definition linSpace : BemppLinear.PiecewiseLinearContinuousScalarSpace :=
  {| BemppLinear.m_gridDim := 2;
     BemppLinear.m_view := linView;
     BemppLinear.m_local2globalDofs := ∅;
     BemppLinear.m_global2localDofs := [] |}.

End Examples.

(** * Properties of [HMatrix] *)

Section HMatrixProperties.

Import hmat.

Context {ValueType : Type} `{!Scalar ValueType}.
Add Ring ValueType_ring : sc_ring.

Variable indeterminate : nat → nat → ValueType.

Local Abbreviation Matrix := (Matrix ValueType).
Local Abbreviation HMatrix := (HMatrix ValueType).
Local Abbreviation permuteMatToHMatDofs := (permuteMatToHMatDofs indeterminate).
Local Abbreviation permuteMatToOriginalDofs := (permuteMatToOriginalDofs indeterminate).
Local Abbreviation apply := (apply indeterminate).

(** ** Sums *)

Lemma sumOver_ext {A} (l : list A) (f g : A → ValueType) :
  (∀ a, a ∈ l → f a = g a) → sumOver l f = sumOver l g.
Proof.
  induction l as [|a l IH]; intros Hfg; simpl; [done|].
  rewrite Hfg by left. rewrite IH; [done|].
  intros b Hb. apply Hfg. by right.
Qed.

Lemma sumOver_app {A} (l1 l2 : list A) (f : A → ValueType) :
  sumOver (l1 ++ l2) f = (sumOver l1 f + sumOver l2 f)%S.
Proof.
  induction l1 as [|a l1 IH]; simpl; [ring|]. rewrite IH. ring.
Qed.

Lemma sumOver_zero {A} (l : list A) :
  sumOver l (λ _, 0%S) = 0%S.
Proof. induction l as [|a l IH]; simpl; [done|]. rewrite IH. ring. Qed.

Lemma sumOver_add {A} (l : list A) (f g : A → ValueType) :
  sumOver l (λ a, f a + g a)%S = (sumOver l f + sumOver l g)%S.
Proof. induction l as [|a l IH]; simpl; [ring|]. rewrite IH. ring. Qed.

Lemma sumOver_mul_l {A} (l : list A) (c : ValueType) (f : A → ValueType) :
  sumOver l (λ a, c * f a)%S = (c * sumOver l f)%S.
Proof. induction l as [|a l IH]; simpl; [ring|]. rewrite IH. ring. Qed.

Lemma sumOver_Permutation {A} (l1 l2 : list A) (f : A → ValueType) :
  l1 ≡ₚ l2 → sumOver l1 f = sumOver l2 f.
Proof.
  induction 1 as [|a l1 l2 _ IH|a b l|l1 l2 l3 _ IH1 _ IH2]; simpl.
  - done.
  - by rewrite IH.
  - ring.
  - by rewrite IH1.
Qed.

Lemma sumOver_fmap {A B} (h : A → B) (l : list A) (f : B → ValueType) :
  sumOver (h <$> l) f = sumOver l (λ a, f (h a)).
Proof. induction l as [|a l IH]; csimpl; [done|]. by rewrite IH. Qed.

Lemma sumOver_exchange {A B} (l1 : list A) (l2 : list B) (f : A → B → ValueType) :
  sumOver l1 (λ a, sumOver l2 (λ b, f a b)) =
  sumOver l2 (λ b, sumOver l1 (λ a, f a b)).
Proof.
  induction l1 as [|a l1 IH]; simpl.
  - by rewrite sumOver_zero.
  - rewrite IH. by rewrite sumOver_add.
Qed.

(** A sum guarded by a predicate is the sum over the filtered list. *)
Lemma sumOver_filter {A} (P : A → bool) (l : list A) (f : A → ValueType) :
  sumOver l (λ a, if P a then f a else 0%S) =
  sumOver (filter (λ a, P a = true) l) f.
Proof.
  induction l as [|a l IH]; simpl; [done|].
  rewrite IH. rewrite filter_cons.
  destruct (P a) eqn:HP; case_decide; try done; simpl; ring.
Qed.

(** When exactly one element of the list passes the guard, the guarded
    sum of a constant is that constant. *)
Lemma sumOver_guard_one {A} (P : A → bool) (l : list A) (c : ValueType) :
  length (filter (λ a, P a = true) l) = 1 →
  sumOver l (λ a, if P a then c else 0%S) = c.
Proof.
  intros Hlen. rewrite sumOver_filter.
  destruct (filter (λ a, P a = true) l) as [|a [|b l']]; simplify_eq/=. ring.
Qed.

(** ** The permutation of rows *)

Lemma copyRow_spec (mat acc : Matrix) (p i n : nat) :
  let r := foldl (λ acc' j, setCoeff acc' p j (coeff mat i j)) acc (seq 0 n) in
  rows r = rows acc ∧ cols r = cols acc ∧
  ∀ a b, coeff r a b =
    if (p <? rows acc) && (b <? cols acc) && (a =? p) && (b <? n)
    then coeff mat i b else coeff acc a b.
Proof.
  cbv zeta. induction n as [|n IH].
  - simpl. repeat split. intros a b. rewrite andb_false_r. done.
  - rewrite seq_S, foldl_app. simpl.
    destruct IH as (Hr & Hc & Hco). rewrite Hr, Hc.
    repeat split. intros a b. rewrite Hco.
    destruct (p <? rows acc) eqn:E1, (b <? cols acc) eqn:E2,
      (a =? p) eqn:E3, (b =? n) eqn:E4, (n <? cols acc) eqn:E5,
      (b <? n) eqn:E6, (b <? S n) eqn:E7; simpl; try done;
      repeat match goal with
      | H : (_ <? _) = true |- _ => apply Nat.ltb_lt in H
      | H : (_ <? _) = false |- _ => apply Nat.ltb_ge in H
      | H : (_ =? _) = true |- _ => apply Nat.eqb_eq in H
      | H : (_ =? _) = false |- _ => apply Nat.eqb_neq in H
      end; try lia; by subst.
Qed.

Lemma copyRows_prefix_spec (f : nat → nat) (mat dst : Matrix) (n : nat) :
  let step := λ acc i,
    foldl (λ acc' j, setCoeff acc' (f i) j (coeff mat i j)) acc (seq 0 (cols mat)) in
  let r := foldl step dst (seq 0 n) in
  rows r = rows dst ∧ cols r = cols dst ∧
  ((∀ i i', i < n → i' < n → f i = f i' → i = i') →
   ∀ i b, i < n → f i < rows dst → b < cols dst → b < cols mat →
     coeff r (f i) b = coeff mat i b).
Proof.
  cbv zeta. induction n as [|n IH].
  - simpl. repeat split. intros _ i b Hi. lia.
  - rewrite seq_S, foldl_app. simpl.
    destruct IH as (Hr & Hc & Hco).
    pose proof (copyRow_spec mat
      (foldl (λ acc i, foldl (λ acc' j, setCoeff acc' (f i) j (coeff mat i j))
                              acc (seq 0 (cols mat))) dst (seq 0 n))
      (f n) n (cols mat)) as (Hr' & Hc' & Hco').
    rewrite Hr', Hc', Hr, Hc. repeat split.
    intros Hinj i b Hi Hfi Hb Hb'. rewrite Hco', Hr, Hc.
    destruct (decide (i = n)) as [->|Hne].
    + rewrite (proj2 (Nat.ltb_lt _ _) Hfi), (proj2 (Nat.ltb_lt _ _) Hb),
        (proj2 (Nat.ltb_lt _ _) Hb'), Nat.eqb_refl. done.
    + assert (f i ≠ f n) as Hfn by (intros Heq; apply Hinj in Heq; lia).
      rewrite (proj2 (Nat.eqb_neq _ _) Hfn), andb_false_r. simpl.
      apply Hco; [|lia|done..].
      intros ???? Heq. apply Hinj; [lia|lia|done].
Qed.

(** Copying every row [i] of [mat] to the row [f i], where [g] undoes
    [f], fills the row [p] with the row [g p] of [mat]. *)
Lemma copyRows_spec (f g : nat → nat) (mat dst : Matrix) :
  rows dst = rows mat → cols dst = cols mat →
  (∀ i, i < rows mat → g i < rows mat ∧ f (g i) = i ∧ g (f i) = i) →
  let r := copyRows f mat dst in
  rows r = rows mat ∧ cols r = cols mat ∧
  ∀ p b, p < rows mat → b < cols mat → coeff r p b = coeff mat (g p) b.
Proof.
  intros Hr Hc Hfg. unfold copyRows.
  pose proof (copyRows_prefix_spec f mat dst (rows mat)) as (Hr' & Hc' & Hco).
  simpl in *. rewrite Hr', Hc'. repeat split; [done..|].
  intros p b Hp Hb. destruct (Hfg p Hp) as (Hg & Hfgp & _).
  rewrite <-Hfgp at 1. apply Hco; [|done|rewrite Hfgp; lia|lia|done].
  intros i i' Hi Hi' Heq.
  destruct (Hfg i Hi) as (_ & _ & <-). destruct (Hfg i' Hi') as (_ & _ & <-).
  by rewrite Heq.
Qed.

Lemma ClusterTree_bijective_to_hmat (c : ClusterTree) :
  ClusterTree_bijective c →
  ∀ i, i < numberOfDofs c →
    mapHMatDofToOriginalDof c i < numberOfDofs c ∧
    mapOriginalDofToHMatDof c (mapHMatDofToOriginalDof c i) = i ∧
    mapHMatDofToOriginalDof c (mapOriginalDofToHMatDof c i) = i.
Proof. intros Hc i Hi. destruct (Hc i Hi) as (? & ? & ? & ?). done. Qed.

Lemma ClusterTree_bijective_to_original (c : ClusterTree) :
  ClusterTree_bijective c →
  ∀ i, i < numberOfDofs c →
    mapOriginalDofToHMatDof c i < numberOfDofs c ∧
    mapHMatDofToOriginalDof c (mapOriginalDofToHMatDof c i) = i ∧
    mapOriginalDofToHMatDof c (mapHMatDofToOriginalDof c i) = i.
Proof. intros Hc i Hi. destruct (Hc i Hi) as (? & ? & ? & ?). done. Qed.

Lemma permuteMatToHMatDofs_spec (h : HMatrix) (mat : Matrix) (sel : RowColSelector) :
  let c := selectClusterTree h sel in
  ClusterTree_bijective c →
  rows mat = numberOfDofs c →
  ∃ P, permuteMatToHMatDofs h mat sel = inr P ∧
       rows P = rows mat ∧ cols P = cols mat ∧
       ∀ p b, p < rows mat → b < cols mat →
         coeff P p b = coeff mat (mapHMatDofToOriginalDof c p) b.
Proof.
  intros c Hbij Hrows. unfold hmat.permuteMatToHMatDofs. fold c.
  rewrite Hrows, Nat.eqb_refl. simpl. eexists. split; [done|].
  rewrite <-Hrows.
  apply copyRows_spec; [done..|].
  intros i Hi. rewrite Hrows in *. by apply ClusterTree_bijective_to_hmat.
Qed.

Lemma permuteMatToOriginalDofs_spec (h : HMatrix) (mat : Matrix) (sel : RowColSelector) :
  let c := selectClusterTree h sel in
  ClusterTree_bijective c →
  rows mat = numberOfDofs c →
  ∃ P, permuteMatToOriginalDofs h mat sel = inr P ∧
       rows P = rows mat ∧ cols P = cols mat ∧
       ∀ p b, p < rows mat → b < cols mat →
         coeff P p b = coeff mat (mapOriginalDofToHMatDof c p) b.
Proof.
  intros c Hbij Hrows. unfold hmat.permuteMatToOriginalDofs. fold c.
  rewrite Hrows, Nat.eqb_refl. simpl. eexists. split; [done|].
  rewrite <-Hrows.
  apply copyRows_spec; [done..|].
  intros i Hi. rewrite Hrows in *. by apply ClusterTree_bijective_to_original.
Qed.

(** C3. For a cluster tree whose index maps are inverse bijections on
    [[0, numberOfDofs)] and a matrix [mat] with [numberOfDofs] rows,
    permuting to the ordering of the tree and back gives [mat] again,
    for the row and for the column cluster tree alike. *)
Theorem permute_round_trip (h : HMatrix) (mat : Matrix) (rowOrColumn : RowColSelector) :
  ClusterTree_bijective (selectClusterTree h rowOrColumn) →
  rows mat = numberOfDofs (selectClusterTree h rowOrColumn) →
  ∃ permuted original,
    permuteMatToHMatDofs h mat rowOrColumn = inr permuted ∧
    permuteMatToOriginalDofs h permuted rowOrColumn = inr original ∧
    mat_eq original mat.
Proof.
  intros Hbij Hrows.
  destruct (permuteMatToHMatDofs_spec h mat rowOrColumn Hbij Hrows)
    as (P & HP & HPr & HPc & HPco).
  destruct (permuteMatToOriginalDofs_spec h P rowOrColumn Hbij)
    as (Q & HQ & HQr & HQc & HQco); [congruence|].
  exists P, Q. repeat split; [done..|congruence|congruence|].
  intros i j Hi Hj. rewrite HQr, HPr in Hi. rewrite HQc, HPc in Hj.
  destruct (Hbij i) as (Hlt & _ & Hinv & _); [lia|].
  rewrite HQco by lia. rewrite HPco by lia. by rewrite Hinv.
Qed.

(** ** The loop over the leaves *)

Lemma one_times_guarded (v : ValueType) :
  (if (1 =? 0)%S then 0%S else (1 * v)%S) = v.
Proof.
  destruct (1 =? 0)%S eqn:E; [|ring].
  apply sc_eqb_eq in E.
  transitivity (1 * v)%S; [rewrite E|]; ring.
Qed.

Lemma times_guarded (alpha v : ValueType) :
  (if (alpha =? 0)%S then 0%S else (alpha * v)%S) = (alpha * v)%S.
Proof.
  destruct (alpha =? 0)%S eqn:E; [|done].
  apply sc_eqb_eq in E. rewrite E. ring.
Qed.

Lemma applyLeaf_shape trans alpha (xPermuted yPermuted : Matrix) elem :
  rows (applyLeaf trans alpha xPermuted yPermuted elem) = rows yPermuted ∧
  cols (applyLeaf trans alpha xPermuted yPermuted elem) = cols yPermuted.
Proof. unfold applyLeaf. by destruct trans. Qed.

Lemma atOffset_entry (m : Matrix) (r k : nat) :
  r < rows m → atOffset m (r + k * rows m) = coeff m r k.
Proof.
  intros Hr. unfold atOffset.
  rewrite Nat.Div0.mod_add, Nat.mod_small by done.
  rewrite Nat.div_add, Nat.div_small by lia. done.
Qed.

Lemma offset_div_mod (lo o n : nat) :
  lo ≤ o → lo + (o - lo) mod n + (o - lo) / n * n = o.
Proof.
  intros Hlo. pose proof (Nat.div_mod_eq (o - lo) n). lia.
Qed.

Lemma applyLeaf_coeff trans alpha (xPermuted yPermuted : Matrix) elem r k :
  r < rows yPermuted →
  k < cols yPermuted →
  coeff (applyLeaf trans alpha xPermuted yPermuted elem) r k =
  (leafAdds trans alpha xPermuted (rows yPermuted) (cols yPermuted) elem r k
   + coeff yPermuted r k)%S.
Proof.
  intros Hr Hk. unfold applyLeaf, leafAdds, rowRange, columnRange.
  destruct trans; cbn [coeff rows cols writeMap HMatrixData_apply mapBlock];
    rewrite (proj2 (Nat.ltb_lt _ _) Hr), (proj2 (Nat.ltb_lt _ _) Hk), !andb_true_r;
    match goal with
    | |- context [(?lo <=? r + k * rows yPermuted)] =>
        destruct (lo <=? r + k * rows yPermuted) eqn:E1; [|cbn; ring];
        apply Nat.leb_le in E1
    end;
    rewrite !andb_true_l;
    match goal with
    | |- context [if ?c then _ else coeff yPermuted r k] =>
        destruct c; [|ring]
    end;
    rewrite one_times_guarded, offset_div_mod, atOffset_entry by done; done.
Qed.

Lemma applyLeaf_fold trans alpha (xPermuted : Matrix)
    (l : list (BlockClusterTreeNode * HMatrixData ValueType)) (yPermuted : Matrix) :
  let y' := foldl (applyLeaf trans alpha xPermuted) yPermuted l in
  rows y' = rows yPermuted ∧ cols y' = cols yPermuted ∧
  ∀ r k, r < rows yPermuted → k < cols yPermuted →
    coeff y' r k =
    (sumOver l (λ elem, leafAdds trans alpha xPermuted
                          (rows yPermuted) (cols yPermuted) elem r k)
     + coeff yPermuted r k)%S.
Proof.
  cbv zeta. revert yPermuted. induction l as [|elem l IH]; intros y; simpl.
  - repeat split. intros. ring.
  - destruct (IH (applyLeaf trans alpha xPermuted y elem)) as (Hr & Hc & Hco).
    destruct (applyLeaf_shape trans alpha xPermuted y elem) as [Hr' Hc'].
    rewrite Hr, Hc. repeat split; [done..|].
    intros r k Hlt Hlt'. rewrite Hco by lia. rewrite Hr', Hc'.
    rewrite applyLeaf_coeff by done. ring.
Qed.

(** With a zero [alpha] a leaf adds nothing. *)
Lemma leafAdds_alpha_zero trans (xPermuted : Matrix) R C elem r k :
  leafAdds trans 0%S xPermuted R C elem r k = 0%S.
Proof.
  unfold leafAdds.
  destruct trans; cbv zeta;
    match goal with |- (if ?c then _ else _) = _ => destruct c end;
    try done; by rewrite (proj2 (sc_eqb_eq 0%S 0%S) eq_refl).
Qed.

(** For a single column, a leaf whose input range lies inside the
    permuted input adds what it is to add. *)
Lemma leafAdds_single_column trans alpha (xPermuted : Matrix) R elem r :
  let inputRange :=
    match trans with
    | NOTRANS => columnRange elem.1
    | TRANS => rowRange elem.1
    end in
  inputRange.1 + cols (op trans (blockContent elem.2)) ≤ rows xPermuted →
  leafAdds trans alpha xPermuted R 1 elem r 0 =
  leafContribution trans alpha xPermuted elem r 0.
Proof.
  cbv zeta. intros Hin. unfold leafAdds, leafContribution, inRange.
  destruct trans; cbv zeta;
    rewrite Nat.mul_0_l, Nat.add_0_r, Nat.mul_1_r;
    match goal with
    | |- context [(?lo <=? r) && (r <? ?lo + (?hi - ?lo))] =>
        destruct (lo <=? r) eqn:E1; [|done]; apply Nat.leb_le in E1;
        replace (r <? lo + (hi - lo)) with (r <? hi)
          by (destruct (r <? hi) eqn:E2; symmetry;
              [apply Nat.ltb_lt; apply Nat.ltb_lt in E2
              |apply Nat.ltb_ge; apply Nat.ltb_ge in E2]; lia);
        destruct (r <? hi) eqn:E2; [|done]; apply Nat.ltb_lt in E2;
        rewrite (Nat.mod_small (r - lo) (hi - lo)) by lia;
        rewrite (Nat.div_small (r - lo) (hi - lo)) by lia
    end;
    cbn [andb]; (destruct (alpha =? 0)%S; [done|]); f_equal; apply sumOver_ext;
    intros j [_ Hj]%elem_of_seq; f_equal;
    cbn [coeff mapBlock]; unfold atOffset;
    rewrite Nat.mul_0_l, Nat.add_0_r, Nat.mod_small, Nat.div_small by lia; done.
Qed.

(** ** Reindexing sums *)

(** A sum over a range guarded by membership in a sub-range is the sum
    over the sub-range. *)
Lemma sumOver_inRange (lo hi n : nat) (g : nat → ValueType) :
  lo ≤ hi ≤ n →
  sumOver (seq 0 n) (λ c, if inRange (lo, hi) c then g c else 0%S) =
  sumOver (seq 0 (hi - lo)) (λ j, g (lo + j)).
Proof.
  intros Hb.
  replace n with (lo + ((hi - lo) + (n - hi))) at 1 by lia.
  rewrite !seq_app, !sumOver_app. simpl.
  rewrite (sumOver_ext (seq 0 lo) _ (λ _, 0%S)), sumOver_zero.
  2:{ intros c [_ Hc]%elem_of_seq. unfold inRange. simpl.
      rewrite (proj2 (Nat.leb_gt _ _)) by lia. done. }
  rewrite (sumOver_ext (seq (lo + (hi - lo)) (n - hi)) _ (λ _, 0%S)), sumOver_zero.
  2:{ intros c [Hc _]%elem_of_seq. unfold inRange. simpl.
      rewrite (proj2 (Nat.ltb_ge _ _)) by lia. by rewrite andb_false_r. }
  replace (seq lo (hi - lo)) with (Nat.add lo <$> seq 0 (hi - lo))
    by (rewrite fmap_add_seq; f_equal; lia).
  rewrite sumOver_fmap.
  rewrite (sumOver_ext _ _ (λ j, g (lo + j))).
  2:{ intros j [_ Hj]%elem_of_seq. unfold inRange. simpl.
      rewrite (proj2 (Nat.leb_le _ _)), (proj2 (Nat.ltb_lt _ _)) by lia. done. }
  ring.
Qed.

(** A bijection of [[0, n)] permutes the indices below [n]. *)
Lemma bijection_permutes_seq (f g : nat → nat) (n : nat) :
  (∀ i, i < n → f i < n ∧ g i < n ∧ g (f i) = i ∧ f (g i) = i) →
  f <$> seq 0 n ≡ₚ seq 0 n.
Proof.
  intros Hfg. apply NoDup_Permutation.
  - apply NoDup_fmap_2_strong; [|apply NoDup_seq].
    intros x y [_ Hx]%elem_of_seq [_ Hy]%elem_of_seq Heq.
    destruct (Hfg x) as (_ & _ & <- & _); [lia|].
    destruct (Hfg y) as (_ & _ & <- & _); [lia|].
    by rewrite Heq.
  - apply NoDup_seq.
  - intros x. rewrite list_elem_of_fmap. setoid_rewrite elem_of_seq. split.
    + intros (y & -> & _ & Hy). destruct (Hfg y) as (? & _); lia.
    + intros [_ Hx]. exists (g x). destruct (Hfg x) as (_ & ? & _ & ?); [lia|].
      split; [done|lia].
Qed.

Lemma sumOver_reindex (c : ClusterTree) (F : nat → ValueType) :
  ClusterTree_bijective c →
  sumOver (seq 0 (numberOfDofs c)) (λ p, F (mapHMatDofToOriginalDof c p)) =
  sumOver (seq 0 (numberOfDofs c)) F.
Proof.
  intros Hbij. rewrite <-(sumOver_fmap (mapHMatDofToOriginalDof c)).
  apply sumOver_Permutation.
  apply (bijection_permutes_seq _ (mapOriginalDofToHMatDof c)).
  intros i Hi. destruct (Hbij i Hi) as (? & ? & ? & ?). done.
Qed.

(** The keys of the data are the leaves, each once. *)
Lemma storesDense_keys (h : HMatrix) (A : Matrix) :
  NoDup (leafNodes (m_blockClusterTree h)) →
  storesDense h A →
  (map_to_list (m_hMatrixData h)).*1 ≡ₚ leafNodes (m_blockClusterTree h).
Proof.
  intros Hnd [Hkeys _]. apply NoDup_Permutation;
    [apply NoDup_fst_map_to_list|done|].
  intros n. rewrite Hkeys, list_elem_of_fmap. split.
  - intros ([n' d] & -> & Hin%elem_of_map_to_list). by exists d.
  - intros [d Hd]. exists (n, d). split; [done|]. by apply elem_of_map_to_list.
Qed.

(** ** The product with exact dense leaves *)

(** With exact dense leaves, the leaves together add to the row [r] of
    the permuted output the row [r] of the permuted operator times the
    input. *)
Lemma dense_contributions (h : HMatrix) (A X xPermuted : Matrix) (r k : nat) :
  let t := m_blockClusterTree h in
  BlockClusterTree_wf t →
  storesDense h A →
  (∀ p, p < BlockClusterTree_columns t →
     coeff xPermuted p k =
     coeff X (mapHMatDofToOriginalDof (columnClusterTree t) p) k) →
  r < BlockClusterTree_rows t →
  sumOver (map_to_list (m_hMatrixData h))
          (λ elem, leafContribution NOTRANS 1%S xPermuted elem r k) =
  sumOver (seq 0 (BlockClusterTree_columns t))
          (λ c, coeff A (mapHMatDofToOriginalDof (rowClusterTree t) r) c
                * coeff X c k)%S.
Proof.
  intros t (Hrow & Hcol & Hnd & Hbounds & Htile) Hstored HxP Hr.
  set (g := λ c, (coeff A (mapHMatDofToOriginalDof (rowClusterTree t) r)
                          (mapHMatDofToOriginalDof (columnClusterTree t) c)
                  * coeff X (mapHMatDofToOriginalDof (columnClusterTree t) c) k)%S).
  set (F := λ n : BlockClusterTreeNode,
         sumOver (seq 0 (BlockClusterTree_columns t))
                 (λ c, if covers n r c then g c else 0%S)).
  rewrite (sumOver_ext _ _ (λ elem, F elem.1)).
  2:{ intros [n d] Hin%elem_of_map_to_list.
      destruct Hstored as [Hkeys Hdense].
      destruct (Hdense n d Hin) as (a & -> & Hra & Hca & Hco).
      assert (n ∈ leafNodes t) as Hleaf by (apply Hkeys; by eexists).
      destruct (Hbounds n Hleaf) as [Hrb Hcb].
      unfold leafContribution, F, covers. simpl.
      destruct (inRange (rowRange n) r) eqn:Hin_r; simpl.
      2:{ by rewrite sumOver_zero. }
      rewrite times_guarded.
      destruct (columnRange n) as [c0 c1] eqn:Hcr. simpl in *.
      rewrite sumOver_inRange by done. rewrite Hca.
      rewrite <-sumOver_mul_l. apply sumOver_ext.
      intros j [_ Hj]%elem_of_seq. unfold g.
      unfold inRange in Hin_r. apply andb_prop in Hin_r as [H1%Nat.leb_le H2%Nat.ltb_lt].
      rewrite Hco by lia. rewrite HxP by lia.
      replace ((rowRange n).1 + (r - (rowRange n).1)) with r by lia. fold t. ring. }
  rewrite <-(sumOver_fmap fst _ F).
  rewrite (sumOver_Permutation _ _ F (storesDense_keys h A Hnd Hstored)).
  unfold F. rewrite sumOver_exchange.
  rewrite (sumOver_ext _ _ g).
  2:{ intros c [_ Hc]%elem_of_seq.
      apply (sumOver_guard_one (λ n, covers n r c)). apply Htile; [done|lia]. }
  unfold g.
  apply (sumOver_reindex (columnClusterTree t)
           (λ c, (coeff A (mapHMatDofToOriginalDof (rowClusterTree t) r) c
                  * coeff X c k)%S)).
  done.
Qed.

Lemma sc_eqb_refl (x : ValueType) : (x =? x)%S = true.
Proof. by apply sc_eqb_eq. Qed.

(** With exact dense leaves and a single column, every leaf adds what
    it is to add: its input range lies inside the permuted input. *)
Lemma dense_leafAdds_single_column (h : HMatrix) (A xPermuted : Matrix)
    (trans : TransposeMode) (alpha : ValueType) (R r : nat) elem :
  let t := m_blockClusterTree h in
  BlockClusterTree_wf t →
  storesDense h A →
  rows xPermuted = numberOfDofs (selectClusterTree h (readSide trans)) →
  elem ∈ map_to_list (m_hMatrixData h) →
  leafAdds trans alpha xPermuted R 1 elem r 0 =
  leafContribution trans alpha xPermuted elem r 0.
Proof.
  intros t (_ & _ & _ & Hbounds & _) [Hkeys Hdense] HxP Helem.
  destruct elem as [n d]. apply elem_of_map_to_list in Helem.
  destruct (Hdense n d Helem) as (a & -> & Hra & Hca & _).
  assert (n ∈ leafNodes t) as Hleaf by (apply Hkeys; by eexists).
  destruct (Hbounds n Hleaf) as [Hrb Hcb].
  apply leafAdds_single_column. rewrite HxP.
  unfold BlockClusterTree_rows, BlockClusterTree_columns in *. subst t.
  destruct trans; simpl; lia.
Qed.

(** ** Initialisation *)

Lemma compressedLeaves_success (c : HMatrixCompressor ValueType) l n :
  n ∈ compressedLeaves c l → is_Some (compressed c n).
Proof.
  induction l as [|m l IH]; simpl; [by intros ?%elem_of_nil|].
  destruct (c m) as [e|d] eqn:Hc; [by intros ?%elem_of_nil|].
  intros [->|Hin]%elem_of_cons; [|by apply IH].
  unfold compressed. rewrite Hc. by eexists.
Qed.

Lemma compressedLeaves_all (c : HMatrixCompressor ValueType) l :
  firstFailure c l = None → compressedLeaves c l = l.
Proof.
  induction l as [|m l IH]; simpl; [done|].
  destruct (c m); [done|]. intros H. by rewrite IH.
Qed.

(** The loop of [initialize]: it stops at the first failure and keeps
    what it has stored until then. *)
Lemma initialize_loop (c : HMatrixCompressor ValueType) l (h : HMatrix) :
  ∃ h',
    for_each_m l (λ node, nodeData ← call (c node); storeData node nodeData) h =
      (match firstFailure c l with Some e => inl e | None => inr () end, h') ∧
    m_blockClusterTree h' = m_blockClusterTree h ∧
    ∀ n, m_hMatrixData h' !! n =
         if decide (n ∈ compressedLeaves c l) then compressed c n
         else m_hMatrixData h !! n.
Proof.
  revert h. induction l as [|m l IH]; intros h; simpl.
  - exists h. split; [done|]. split; [done|]. intros n.
    try rewrite decide_False by apply not_elem_of_nil. done.
  - unfold mbind, M_bind, call at 1. unfold storeData at 1, modify.
    destruct (c m) as [e|d] eqn:Hc.
    + exists h. split; [done|]. split; [done|]. intros n.
      try rewrite decide_False by apply not_elem_of_nil. done.
    + destruct (IH {| m_blockClusterTree := m_blockClusterTree h;
                      m_hMatrixData := <[m := d]> (m_hMatrixData h) |})
        as (h' & Hrun & Htree & Hdata).
      exists h'. split; [exact Hrun|]. split; [done|].
      intros n. rewrite Hdata. simpl.
      destruct (decide (n ∈ compressedLeaves c l)) as [Hin|Hnin].
      * rewrite decide_True; [done|]. by right.
      * destruct (decide (n = m)) as [->|Hne].
        -- rewrite decide_True by left. rewrite lookup_insert_eq.
           unfold compressed. by rewrite Hc.
        -- rewrite decide_False; [by rewrite lookup_insert_ne|].
           by intros [?|?]%elem_of_cons.
Qed.

Lemma initialize_spec (c : HMatrixCompressor ValueType) (h : HMatrix) :
  ∃ h',
    initialize c h =
      (match firstFailure c (leafNodes (m_blockClusterTree h)) with
       | Some e => inl e
       | None => inr ()
       end, h') ∧
    m_blockClusterTree h' = m_blockClusterTree h ∧
    ∀ n, m_hMatrixData h' !! n =
         if decide (n ∈ compressedLeaves c (leafNodes (m_blockClusterTree h)))
         then compressed c n else None.
Proof.
  destruct (initialize_loop c (leafNodes (m_blockClusterTree h))
              {| m_blockClusterTree := m_blockClusterTree h; m_hMatrixData := ∅ |})
    as (h' & Hrun & Htree & Hdata).
  exists h'. unfold initialize, reset, modify, get.
  unfold mbind at 1 2. unfold M_bind at 1 2. simpl. rewrite Hrun. split.
  - by destruct (firstFailure c (leafNodes (m_blockClusterTree h))).
  - split; [done|]. intros n. rewrite Hdata. simpl.
    by rewrite lookup_empty.
Qed.

Lemma isInitialized_nonempty (h : HMatrix) :
  isInitialized h = true ↔ m_hMatrixData h ≠ ∅.
Proof.
  unfold isInitialized. rewrite negb_true_iff, Nat.eqb_neq.
  apply map_size_non_empty_iff.
Qed.

(** C4, as the code has it. [isInitialized] tells whether the mapping
    holds data for at least one leaf. [initialize] stores the data of
    the leaves one after the other; the error of the first leaf on
    which the compressor fails propagates, and the mapping keeps the
    data of exactly the leaves before that one, so that [isInitialized]
    holds afterwards unless the first leaf failed. Without a failure
    every leaf has data. *)
Theorem initialize_outcome :
  (∀ h : HMatrix, isInitialized h = true ↔ m_hMatrixData h ≠ ∅) ∧
  (∀ (c : HMatrixCompressor ValueType) (h : HMatrix),
     let leaves := leafNodes (m_blockClusterTree h) in
     ∃ h',
       initialize c h =
         (match firstFailure c leaves with Some e => inl e | None => inr () end,
          h') ∧
       m_blockClusterTree h' = m_blockClusterTree h ∧
       (∀ n, m_hMatrixData h' !! n =
             if decide (n ∈ compressedLeaves c leaves) then compressed c n
             else None) ∧
       (isInitialized h' = true ↔ compressedLeaves c leaves ≠ []) ∧
       (firstFailure c leaves = None → everyLeafHasData h')).
Proof.
  split; [apply isInitialized_nonempty|].
  intros c h leaves.
  destruct (initialize_spec c h) as (h' & Hrun & Htree & Hdata).
  fold leaves in Hrun, Hdata.
  exists h'. split; [done|]. split; [done|]. split; [done|]. split.
  - rewrite isInitialized_nonempty. split.
    + intros Hne Hnil. apply Hne. apply map_eq. intros n.
      rewrite Hdata, Hnil, lookup_empty. case_decide as Hin; [|done].
      by apply elem_of_nil in Hin.
    + intros Hne Hempty.
      destruct (compressedLeaves c leaves) as [|n l] eqn:Hl; [done|].
      pose proof (Hdata n) as Hn. rewrite Hempty, lookup_empty in Hn.
      rewrite decide_True in Hn by left.
      destruct (compressedLeaves_success c leaves n) as [d Hd];
        [rewrite Hl; left|congruence].
  - intros Hok n Hn. rewrite Htree in Hn. fold leaves in Hn.
    rewrite Hdata, (compressedLeaves_all _ _ Hok), decide_True by done.
    apply (compressedLeaves_success c leaves).
    by rewrite (compressedLeaves_all _ _ Hok).
Qed.

(** C8. The constructor that takes a compressor yields a matrix exactly
    when constructing from the tree alone and then initialising
    succeeds, and then the two matrices have the same tree, the same
    data for every leaf, the same [isInitialized] and the same [apply];
    otherwise both fail with the same error. *)
Theorem constructor_with_compressor_refines (t : BlockClusterTree)
    (c : HMatrixCompressor ValueType) :
  match HMatrix_new_compressed t c, construct_then_initialize t c with
  | inr h, (inr _, h') =>
      m_blockClusterTree h = m_blockClusterTree h' ∧
      (∀ n, m_hMatrixData h !! n = m_hMatrixData h' !! n) ∧
      isInitialized h = isInitialized h' ∧
      ∀ X trans alpha beta Y,
        apply h X trans alpha beta Y = apply h' X trans alpha beta Y
  | inl e, (inl e', _) => e = e'
  | _, _ => False
  end.
Proof.
  unfold HMatrix_new_compressed, construct_then_initialize.
  destruct (initialize c (HMatrix_new t)) as [[e|[]] h]; done.
Qed.

(** ** Shape mismatch *)

(** C5. When the number of rows of [mat] differs from the number of
    degrees of freedom of the addressed cluster tree,
    [permuteMatToHMatDofs] throws the shape-mismatch error and, being a
    [const] method, leaves the matrix as it was. *)
Theorem permuteMatToHMatDofs_shape_mismatch (h : HMatrix) (mat : Matrix)
    (rowOrColumn : RowColSelector) :
  rows mat ≠ numberOfDofs (selectClusterTree h rowOrColumn) →
  const_method (λ this, permuteMatToHMatDofs this mat rowOrColumn) h =
  (inl (runtime_error
     "HMatrix::permuteMatToHMatDofs: Input matrix has wrong number of rows."),
   h).
Proof.
  intros Hne. unfold const_method, hmat.permuteMatToHMatDofs.
  rewrite (proj2 (Nat.eqb_neq _ _)) by done. done.
Qed.

(** ** Scaling *)

(** C6. With [beta = 0], two calls of [apply] that differ only in what
    [Y] holds at the start (same shape, any content) end with the same
    outcome and the same [Y]: the old content is never read. *)
Theorem apply_beta_zero_ignores_Y (h : HMatrix) (X Y1 Y2 : Matrix)
    (trans : TransposeMode) (alpha : ValueType) :
  rows Y1 = rows Y2 →
  cols Y1 = cols Y2 →
  apply h X trans alpha 0%S Y1 = apply h X trans alpha 0%S Y2.
Proof.
  intros Hr Hc.
  unfold hmat.apply, mbind, M_bind, modify.
  rewrite sc_eqb_refl. unfold zeros. by rewrite Hr, Hc.
Qed.

(** X13. Without transposition, [alpha = 0] leaves [beta] times the old
    [Y], whatever [X] and the stored blocks hold. *)
Lemma apply_notrans_alpha_zero (h : HMatrix) (X Y : Matrix) (beta : ValueType) :
  ClusterTree_bijective (rowClusterTree (m_blockClusterTree h)) →
  ClusterTree_bijective (columnClusterTree (m_blockClusterTree h)) →
  rows X = HMatrix_columns h →
  rows Y = HMatrix_rows h →
  ∃ Y', apply h X NOTRANS 0%S beta Y = (inr (), Y') ∧ mat_eq Y' (scale beta Y).
Proof.
  intros Hrow Hcol HrX HrY.
  set (Y1 := if (beta =? 0)%S then zeros Y else scale beta Y).
  assert (mat_eq Y1 (scale beta Y)) as (HY1r & HY1c & HY1co).
  { unfold Y1. destruct (beta =? 0)%S eqn:E; [|done].
    apply sc_eqb_eq in E. subst beta. repeat split. intros i j _ _. simpl. ring. }
  simpl in HY1r, HY1c.
  destruct (permuteMatToHMatDofs_spec h X COL Hcol HrX)
    as (xP & HxP & _).
  destruct (permuteMatToHMatDofs_spec h Y1 ROW Hrow)
    as (yP & HyP & HyPr & HyPc & HyPco); [by rewrite HY1r|].
  destruct (applyLeaf_fold NOTRANS 0%S xP (map_to_list (m_hMatrixData h)) yP)
    as (Hfr & Hfc & Hfco).
  destruct (permuteMatToOriginalDofs_spec h
              (foldl (applyLeaf NOTRANS 0%S xP) yP (map_to_list (m_hMatrixData h)))
              ROW Hrow) as (Y' & HY' & HY'r & HY'c & HY'co).
  { rewrite Hfr, HyPr, HY1r. exact HrY. }
  exists Y'. split.
  - unfold hmat.apply, mbind, M_bind, modify, get, call, put.
    fold Y1. rewrite HxP, HyP, HY'. done.
  - unfold mat_eq. simpl. split; [congruence|]. split; [congruence|].
    intros i k Hi Hk.
    unfold HMatrix_rows, BlockClusterTree_rows in HrY.
    assert (i < numberOfDofs (rowClusterTree (m_blockClusterTree h))) as Hi'
      by (simpl in *; lia).
    destruct (Hrow i Hi') as (Hpi & _ & Hinv & _).
    simpl in *.
    rewrite HY'co by lia. rewrite Hfco by lia. rewrite HyPco by lia.
    rewrite Hinv, HY1co by lia. simpl.
    rewrite (sumOver_ext _ _ (λ _, 0%S)), sumOver_zero; [ring|].
    intros elem _. apply leafAdds_alpha_zero.
Qed.

(** Initialising with the dense compressor stores every leaf as the
    exact dense block. *)
Lemma initialize_dense_stores (t : BlockClusterTree) (A : Matrix) :
  let h := (initialize (denseCompressor t A) (HMatrix_new t)).2 in
  m_blockClusterTree h = t ∧ storesDense h A.
Proof.
  cbv zeta.
  destruct (initialize_spec (denseCompressor t A) (HMatrix_new t))
    as (h' & Hrun & Htree & Hdata).
  rewrite Hrun. simpl in *.
  assert (∀ l, compressedLeaves (denseCompressor t A) l = l) as Hall
    by (induction l as [|?? IH]; simpl; [done|by rewrite IH]).
  rewrite Hall in Hdata.
  split; [done|]. split.
  - intros n. rewrite Htree, Hdata. case_decide; [|split; [done|by intros [??]]].
    split; [by eexists|done].
  - intros n d. rewrite Hdata. case_decide; [|done].
    intros [= <-]. eexists. split; [done|]. rewrite Htree. by repeat split.
Qed.

End HMatrixProperties.

(** * Runs on concrete operators *)

Section ConcreteRuns.

Import hmat Examples.

Lemma keepTree_bijective : ClusterTree_bijective keepTree.
Proof. intros i Hi. simpl in *. repeat split; done. Qed.

Lemma swapTree_bijective : ClusterTree_bijective swapTree.
Proof.
  intros i Hi. simpl in Hi. destruct i as [|[|i]]; simpl; repeat split; lia.
Qed.

Lemma tree22_wf : BlockClusterTree_wf tree22.
Proof.
  split; [apply keepTree_bijective|]. split; [apply swapTree_bijective|].
  split; [|split].
  - apply (bool_decide_unpack _). by vm_compute.
  - intros n Hn. simpl in Hn.
    repeat (apply elem_of_cons in Hn as [->|Hn]); [vm_compute; lia..|].
    by apply elem_of_nil in Hn.
  - intros i j Hi Hj. change (i < 2) in Hi. change (j < 2) in Hj.
    destruct i as [|[|i]]; [| |lia]; (destruct j as [|[|j]]; [| |lia]);
      by vm_compute.
Qed.

Lemma h22_tree : m_blockClusterTree h22 = tree22.
Proof. apply (initialize_dense_stores tree22 A22). Qed.

Lemma h22_storesDense : storesDense h22 A22.
Proof. apply (initialize_dense_stores tree22 A22). Qed.

(** C1, at a failing input. The 2 x 2 operator has every leaf stored as
    its exact dense block and its cluster trees are bijective, the
    identity of order two conforms; and yet [apply] with [NOTRANS],
    [alpha = 1] and [beta = 0] does not leave the dense product in [Y].
    The block of the permuted input handed to a leaf is mapped as
    [n * cols] contiguous scalars from the first entry of the block;
    with two columns and a leaf on one row out of two, the second column
    of the map is not the second column of the block, and the result is
    written over the entries of [yPermuted] in the same way. *)
Theorem apply_notrans_two_columns :
  let Y := ofList 2 2 [[9; 9]; [9; 9]]%Z in
  let r := apply garbage h22 I2 NOTRANS 1%Z 0%Z Y in
  BlockClusterTree_wf (m_blockClusterTree h22) ∧
  storesDense h22 A22 ∧
  rows I2 = HMatrix_columns h22 ∧ rows Y = HMatrix_rows h22 ∧ cols I2 = cols Y ∧
  r.1 = inr () ∧
  toList r.2 = [[1; 4]; [6; 0]]%Z ∧
  toList (matmul A22 I2) = [[1; 2]; [3; 4]]%Z.
Proof.
  cbv zeta. split; [rewrite h22_tree; apply tree22_wf|].
  split; [apply h22_storesDense|]. by vm_compute.
Qed.

Example apply_notrans_scaled_run :
  let r := apply garbage h22 (ofList 2 1 [[5]; [7]]%Z) NOTRANS 2%Z 3%Z
                 (ofList 2 1 [[1]; [2]]%Z) in
  r.1 = inr () ∧ toList r.2 = [[41]; [92]]%Z.
Proof. by vm_compute. Qed.

(** The round trip through the swapped ordering of the columns. *)
Lemma permute_round_trip_witness :
  ∃ permuted original,
    permuteMatToHMatDofs garbage h22 A22 COL = inr permuted ∧
    permuteMatToOriginalDofs garbage h22 permuted COL = inr original ∧
    mat_eq original A22.
Proof.
  apply (permute_round_trip garbage h22 A22 COL).
  - unfold selectClusterTree. rewrite h22_tree. apply swapTree_bijective.
  - reflexivity.
Defined.

Example permuteMatToHMatDofs_run :
  match permuteMatToHMatDofs garbage h22 A22 COL with
  | inr permuted => toList permuted = [[3; 4]; [1; 2]]%Z
  | inl _ => False
  end.
Proof. by vm_compute. Qed.

(** A matrix of three rows against two degrees of freedom. *)
Lemma permuteMatToHMatDofs_shape_mismatch_witness :
  const_method
    (λ this, permuteMatToHMatDofs garbage this
               (ofList 3 1 [[1]; [2]; [3]]%Z) ROW) h22 =
  (inl (runtime_error
     "HMatrix::permuteMatToHMatDofs: Input matrix has wrong number of rows."),
   h22).
Proof.
  apply (permuteMatToHMatDofs_shape_mismatch garbage h22
           (ofList 3 1 [[1]; [2]; [3]]%Z) ROW).
  vm_compute. lia.
Defined.

(** [Y] zeroed against [Y] filled with other numbers. *)
Lemma apply_beta_zero_ignores_Y_witness :
  apply garbage h22 I2 TRANS 5%Z 0%S (ofList 2 2 [[0; 0]; [0; 0]]%Z) =
  apply garbage h22 I2 TRANS 5%Z 0%S (ofList 2 2 [[7; 8]; [9; 10]]%Z).
Proof.
  apply (apply_beta_zero_ignores_Y garbage h22 I2
           (ofList 2 2 [[0; 0]; [0; 0]]%Z) (ofList 2 2 [[7; 8]; [9; 10]]%Z)
           TRANS 5%Z); reflexivity.
Defined.

(** C4, as stated, fails: the compressor fails on the second of three
    leaves; the error propagates, and yet [isInitialized] holds while
    two leaves have no data. *)
Lemma isInitialized_after_failed_initialize :
  let r := initialize failsOnSecond (HMatrix_new tree22) in
  r.1 = inl (runtime_error "compression failed") ∧
  ¬ (isInitialized r.2 = true ↔ everyLeafHasData r.2).
Proof.
  cbv zeta. split; [by vm_compute|].
  intros [Hall _].
  assert (isInitialized (initialize failsOnSecond (HMatrix_new tree22)).2 = true)
    as Hinit by (by vm_compute).
  specialize (Hall Hinit (leaf 1 (0, 1) (1, 2))).
  destruct Hall as [d Hd].
  - vm_compute. right. left.
  - vm_compute in Hd. discriminate.
Qed.

(** The outcome of that run, from the theorem. *)
Lemma initialize_outcome_witness :
  ∃ h',
    initialize failsOnSecond (HMatrix_new tree22) =
      (inl (runtime_error "compression failed"), h') ∧
    (∀ n, m_hMatrixData h' !! n =
          if decide (n ∈ [leaf 0 (0, 1) (0, 1)]) then compressed failsOnSecond n
          else None) ∧
    isInitialized h' = true.
Proof.
  destruct (proj2 (initialize_outcome (ValueType := Z))
              failsOnSecond (HMatrix_new tree22))
    as (h' & Hrun & _ & Hdata & Hinit & _).
  exists h'. split; [exact Hrun|]. split; [exact Hdata|].
  apply Hinit. discriminate.
Defined.

(** C2, at a failing input. With [TRANS] the result is written back
    through the row cluster tree although it was accumulated in the
    ordering of the column cluster tree: for the 2 x 2 operator whose
    columns are stored swapped and an input of a single column, the
    rows of the result come out swapped, unlike the product with the
    explicitly transposed operator; for the 2 x 1 operator the final
    permutation throws. *)
Theorem apply_trans_writes_back_by_rows :
  let X := ofList 2 1 [[5]; [7]]%Z in
  let Y := ofList 2 1 [[9]; [9]]%Z in
  let r := apply garbage h22 X TRANS 1%Z 0%Z Y in
  let rT := apply garbage h22T X NOTRANS 1%Z 0%Z Y in
  (r.1 = inr () ∧ toList r.2 = [[38]; [26]]%Z) ∧
  (rT.1 = inr () ∧ toList rT.2 = [[26]; [38]]%Z) ∧
  toList (matmul (transpose A22) X) = [[26]; [38]]%Z ∧
  let r21 := apply garbage h21 (ofList 2 1 [[1]; [1]]%Z) TRANS 1%Z 0%Z
                   (ofList 1 1 [[9]]%Z) in
  r21.1 = inl (runtime_error
    "HMatrix::permuteMatToOriginalDofs: Input matrix has wrong number of rows.") ∧
  toList r21.2 = [[0]]%Z.
Proof. by vm_compute. Qed.

(** C7, at a failing input. With [TRANS], [alpha = 0] and [beta = 1]
    the rows of [Y] come back swapped where the claim leaves [Y] as it
    was: the same write-back through the row cluster tree. *)
Theorem apply_trans_alpha_zero_moves_Y :
  let Y := ofList 2 1 [[1]; [2]]%Z in
  let r := apply garbage h22 (ofList 2 1 [[0]; [0]]%Z) TRANS 0%Z 1%Z Y in
  r.1 = inr () ∧ toList r.2 = [[2]; [1]]%Z ∧ toList (scale 1%Z Y) = [[1]; [2]]%Z.
Proof. by vm_compute. Qed.

End ConcreteRuns.

(** * Properties of [PiecewiseConstantScalarSpace] *)

Section SpaceProperties.

Import Bempp.

(** C10. [setElementVariant] throws exactly when the variant is not the
    one that [elementVariant] gives to the element, and in both cases
    the space is as before. *)
Theorem setElementVariant_spec (sp : PiecewiseConstantScalarSpace)
    (element : Entity) (variant : ElementVariant) :
  let r := setElementVariant element variant sp in
  r.2 = sp ∧
  (r.1 = inl (runtime_error
            "PiecewiseConstantScalarSpace::setElementVariant(): invalid variant")
   ↔ variant ≠ elementVariant element) ∧
  (r.1 = inr () ↔ variant = elementVariant element).
Proof.
  unfold setElementVariant.
  destruct (variant =? elementVariant element)%Z eqn:E; simpl.
  - apply Z.eqb_eq in E. repeat split; try done.
  - apply Z.eqb_neq in E. repeat split; try done.
Qed.

Example elementVariant_triangle :
  elementVariant {| entityId := 0; type := Examples.triangle |} = 3%Z.
Proof. reflexivity. Qed.

(** ** The assignment of the degrees of freedom *)

Section Assign.

Variable view : GridView.
Variable segment : GridSegment.

Local Abbreviation inSeg := (λ e : Entity, inSegment view segment e = true).

(** What holds after the loop has visited the elements [pre]. *)
Lemma assign_loop_invariant (pre : list Entity) :
  NoDup (elementMapper view <$> pre) →
  (∀ e, e ∈ pre → elementMapper view e < entityCount view 0) →
  let st := foldl (assignStep view segment) (assignState0 (entityCount view 0)) pre in
  globalDofCount_ st = Z.of_nat (length (filter inSeg pre)) ∧
  length (global2local st) = length (filter inSeg pre) ∧
  length (local2global st) = entityCount view 0 ∧
  (∃ g, globalDofs st = [g]) ∧
  ∀ k e, pre !! k = Some e →
    local2global st !! elementMapper view e =
    Some [if inSegment view segment e
          then Z.of_nat (length (filter inSeg (take k pre)))
          else (-1)%Z].
Proof.
  induction pre as [|e pre IH] using rev_ind; intros Hnd Hlt; cbv zeta.
  - simpl. rewrite length_replicate. repeat split; [by eexists|].
    intros k e Hk. by rewrite lookup_nil in Hk.
  - rewrite fmap_app, NoDup_app in Hnd. destruct Hnd as (Hnd & Hfresh & _).
    destruct IH as (Hcount & Hg2l & Hl2g & [g Hg] & Hlook); [done| |].
    { intros e' He'. apply Hlt. apply elem_of_app. by left. }
    assert (elementMapper view e < entityCount view 0) as Hidx.
    { apply Hlt. apply elem_of_app. right. by left. }
    rewrite foldl_app. simpl.
    set (st := foldl (assignStep view segment) (assignState0 (entityCount view 0)) pre) in *.
    rewrite filter_app, length_app, filter_cons, filter_nil.
    assert (∀ k e', (pre ++ [e]) !! k = Some e' →
              (k < length pre ∧ pre !! k = Some e' ∧
               elementMapper view e' ≠ elementMapper view e) ∨
              (k = length pre ∧ e' = e)) as Hcases.
    { intros k e' Hk. destruct (decide (k < length pre)) as [Hlt'|Hge].
      - left. rewrite lookup_app_l in Hk by done. split; [done|]. split; [done|].
        intros Heq. apply (Hfresh (elementMapper view e')).
        + apply list_elem_of_fmap. exists e'. split; [done|].
          by apply list_elem_of_lookup_2 in Hk.
        + rewrite Heq. csimpl. left.
      - right. rewrite lookup_app_r in Hk by lia.
        destruct (k - length pre) as [|n] eqn:Hn; simpl in Hk; [|done].
        split; [lia|congruence]. }
    unfold assignStep. fold (inSegment view segment e).
    destruct (decide (inSegment view segment e = true)) as [Hin|Hin].
    + rewrite Hin. simpl.
      rewrite length_app, !length_insert, Hg2l, Hcount, Hg. simpl.
      split; [lia|]. split; [lia|]. split; [done|]. split; [by eexists|].
      intros k e' Hk. destruct (Hcases k e' Hk) as [(Hk1 & Hk2 & Hne)|[-> ->]].
      * rewrite list_lookup_insert_ne by done. rewrite take_app_le by lia.
        by apply Hlook.
      * rewrite list_lookup_insert_eq by lia. rewrite Hin.
        rewrite take_app_ge, Nat.sub_diag by lia. simpl. by rewrite app_nil_r.
    + apply not_true_is_false in Hin. rewrite Hin. simpl.
      rewrite !length_insert, Hg2l, Hcount, Hg, Nat.add_0_r. simpl.
      split; [done|]. split; [done|]. split; [done|]. split; [by eexists|].
      intros k e' Hk. destruct (Hcases k e' Hk) as [(Hk1 & Hk2 & Hne)|[-> ->]].
      * rewrite list_lookup_insert_ne by done. rewrite take_app_le by lia.
        by apply Hlook.
      * rewrite list_lookup_insert_eq by lia. by rewrite Hin.
Qed.

(** The count of contained elements grows at every contained element. *)
Lemma containedBefore_lt (k1 k2 : nat) (e : Entity) :
  entities view !! k1 = Some e → inSegment view segment e = true → k1 < k2 →
  containedBefore view segment k1 < containedBefore view segment k2.
Proof.
  intros Hk He Hlt. unfold containedBefore.
  replace k2 with (S k1 + (k2 - S k1)) by lia.
  rewrite <-take_take_drop, filter_app, length_app.
  rewrite (take_S_r _ _ _ Hk), filter_app, length_app, filter_cons.
  rewrite decide_True by done. simpl. lia.
Qed.

End Assign.

(** C9. Over a view whose mapper numbers the elements without
    repetition and below [entityCount(0)]: [globalDofCount] is the
    number of elements of the view that the segment contains; the
    contained element visited at position [k] gets as its only global
    index the number of contained elements visited before it, so the
    indices run from 0 without gaps in the order of the iterator and
    two contained elements never share one; an element outside the
    segment gets [-1]. *)
Theorem assignDofs_spec (view : GridView) (segment : GridSegment) :
  GridView_wf view →
  let sp := PiecewiseConstantScalarSpace_new view segment in
  globalDofCount sp =
    length (filter (λ e, inSegment view segment e = true) (entities view)) ∧
  (∀ k e, entities view !! k = Some e →
     getGlobalDofs sp e =
     Some [if inSegment view segment e
           then Z.of_nat (containedBefore view segment k)
           else (-1)%Z]) ∧
  (∀ k e, entities view !! k = Some e → inSegment view segment e = true →
     containedBefore view segment k < globalDofCount sp) ∧
  (∀ k1 k2 e1 e2, entities view !! k1 = Some e1 → entities view !! k2 = Some e2 →
     inSegment view segment e1 = true → inSegment view segment e2 = true →
     getGlobalDofs sp e1 = getGlobalDofs sp e2 → k1 = k2).
Proof.
  intros [Hnd Hlt]. cbv zeta.
  destruct (assign_loop_invariant view segment (entities view) Hnd Hlt)
    as (_ & Hg2l & _ & _ & Hlook).
  assert (∀ k e, entities view !! k = Some e →
     getGlobalDofs (PiecewiseConstantScalarSpace_new view segment) e =
     Some [if inSegment view segment e
           then Z.of_nat (containedBefore view segment k)
           else (-1)%Z]) as Hget.
  { intros k e Hk. unfold getGlobalDofs. simpl. by apply Hlook. }
  assert (globalDofCount (PiecewiseConstantScalarSpace_new view segment) =
          containedBefore view segment (length (entities view))) as Hcount.
  { unfold globalDofCount, containedBefore. simpl. rewrite firstn_all. exact Hg2l. }
  split; [|split; [done|split]].
  - rewrite Hcount. unfold containedBefore. by rewrite firstn_all.
  - intros k e Hk He. rewrite Hcount.
    apply (containedBefore_lt view segment k _ e Hk He).
    by apply lookup_lt_Some in Hk.
  - intros k1 k2 e1 e2 Hk1 Hk2 He1 He2.
    rewrite (Hget k1 e1 Hk1), (Hget k2 e2 Hk2), He1, He2.
    intros [= Heq%Nat2Z.inj].
    destruct (Nat.lt_trichotomy k1 k2) as [Hlt'|[->|Hgt]]; [|done|].
    + pose proof (containedBefore_lt view segment k1 k2 e1 Hk1 He1 Hlt'). lia.
    + pose proof (containedBefore_lt view segment k2 k1 e2 Hk2 He2 Hgt). lia.
Qed.

(** The theorem at a view of three elements, visited in the order of
    the indices 2, 0, 1, and the segment without the element 0. *)
Lemma assignDofs_spec_witness :
  let sp := PiecewiseConstantScalarSpace_new Examples.view3 Examples.segment3 in
  globalDofCount sp = 2 ∧
  m_local2globalDofs sp = [[-1]; [1]; [0]]%Z.
Proof.
  destruct (assignDofs_spec Examples.view3 Examples.segment3) as (Hcount & _).
  - split.
    + apply (bool_decide_unpack _). by vm_compute.
    + intros e He. simpl in He.
      repeat (apply elem_of_cons in He as [->|He]); [vm_compute; lia..|].
      by apply elem_of_nil in He.
  - split; [exact Hcount|reflexivity].
Defined.

End SpaceProperties.

(** * Further properties of [HMatrix] *)

Section HMatrixFurther.

Import hmat.

Context {ValueType : Type} `{!Scalar ValueType}.

Add Ring ValueType_ring_further : sc_ring.

Variable indeterminate : nat → nat → ValueType.

Local Abbreviation Matrix := (Matrix ValueType).
Local Abbreviation HMatrix := (HMatrix ValueType).
Local Abbreviation permuteMatToHMatDofs := (permuteMatToHMatDofs indeterminate).
Local Abbreviation permuteMatToOriginalDofs := (permuteMatToOriginalDofs indeterminate).
Local Abbreviation apply := (apply indeterminate).

(** ** Permutations *)

(** The permutations return exactly when the rows fit, and keep the
    shape. *)
Lemma permuteMatToHMatDofs_fits (h : HMatrix) (mat : Matrix) (sel : RowColSelector) :
  rows mat = numberOfDofs (selectClusterTree h sel) →
  ∃ P, permuteMatToHMatDofs h mat sel = inr P ∧
       rows P = rows mat ∧ cols P = cols mat.
Proof.
  intros Hrows. unfold hmat.permuteMatToHMatDofs.
  rewrite Hrows, Nat.eqb_refl. simpl. eexists. split; [done|].
  rewrite <-Hrows. unfold copyRows.
  destruct (copyRows_prefix_spec (mapOriginalDofToHMatDof (selectClusterTree h sel))
              mat (Matrix_alloc indeterminate (rows mat) (cols mat)) (rows mat))
    as (Hr & Hc & _).
  by rewrite Hr, Hc.
Qed.

Lemma permuteMatToOriginalDofs_fits (h : HMatrix) (mat : Matrix) (sel : RowColSelector) :
  rows mat = numberOfDofs (selectClusterTree h sel) →
  ∃ P, permuteMatToOriginalDofs h mat sel = inr P ∧
       rows P = rows mat ∧ cols P = cols mat.
Proof.
  intros Hrows. unfold hmat.permuteMatToOriginalDofs.
  rewrite Hrows, Nat.eqb_refl. simpl. eexists. split; [done|].
  rewrite <-Hrows. unfold copyRows.
  destruct (copyRows_prefix_spec (mapHMatDofToOriginalDof (selectClusterTree h sel))
              mat (Matrix_alloc indeterminate (rows mat) (cols mat)) (rows mat))
    as (Hr & Hc & _).
  by rewrite Hr, Hc.
Qed.

Lemma permuteMatToOriginalDofs_misfit (h : HMatrix) (mat : Matrix) (sel : RowColSelector) :
  rows mat ≠ numberOfDofs (selectClusterTree h sel) →
  permuteMatToOriginalDofs h mat sel =
  inl (runtime_error
    "HMatrix::permuteMatToOriginalDofs: Input matrix has wrong number of rows.").
Proof.
  intros Hne. unfold hmat.permuteMatToOriginalDofs.
  by rewrite (proj2 (Nat.eqb_neq _ _)) by done.
Qed.

Lemma permuteMatToHMatDofs_misfit (h : HMatrix) (mat : Matrix) (sel : RowColSelector) :
  rows mat ≠ numberOfDofs (selectClusterTree h sel) →
  permuteMatToHMatDofs h mat sel =
  inl (runtime_error
    "HMatrix::permuteMatToHMatDofs: Input matrix has wrong number of rows.").
Proof.
  intros Hne. unfold hmat.permuteMatToHMatDofs.
  by rewrite (proj2 (Nat.eqb_neq _ _)) by done.
Qed.

(** X1. [permuteMatToOriginalDofs] throws its own shape-mismatch error
    when the number of rows of [mat] differs from the number of degrees
    of freedom of the addressed cluster tree, and leaves the matrix as
    it was. *)
Theorem permuteMatToOriginalDofs_shape_mismatch (h : HMatrix) (mat : Matrix)
    (rowOrColumn : RowColSelector) :
  rows mat ≠ numberOfDofs (selectClusterTree h rowOrColumn) →
  const_method (λ this, permuteMatToOriginalDofs this mat rowOrColumn) h =
  (inl (runtime_error
     "HMatrix::permuteMatToOriginalDofs: Input matrix has wrong number of rows."),
   h).
Proof.
  intros Hne. unfold const_method. by rewrite permuteMatToOriginalDofs_misfit.
Qed.

(** X2. Over bijective index maps, [permuteMatToHMatDofs] returns a
    matrix of the shape of [mat] whose row [mapOriginalDofToHMatDof i]
    is the row [i] of [mat]: the rows are rearranged, nothing is lost
    and the columns are untouched. *)
Theorem permuteMatToHMatDofs_moves_rows (h : HMatrix) (mat : Matrix)
    (rowOrColumn : RowColSelector) :
  let c := selectClusterTree h rowOrColumn in
  ClusterTree_bijective c →
  rows mat = numberOfDofs c →
  ∃ permuted,
    permuteMatToHMatDofs h mat rowOrColumn = inr permuted ∧
    rows permuted = rows mat ∧ cols permuted = cols mat ∧
    ∀ i j, i < rows mat → j < cols mat →
      coeff permuted (mapOriginalDofToHMatDof c i) j = coeff mat i j.
Proof.
  intros c Hbij Hrows.
  destruct (permuteMatToHMatDofs_spec indeterminate h mat rowOrColumn Hbij Hrows)
    as (P & HP & Hr & Hc & Hco).
  exists P. repeat split; [done..|].
  intros i j Hi Hj. destruct (Hbij i) as (Hlt & _ & Hinv & _); [fold c; lia|].
  fold c in Hco. rewrite Hco by (fold c in Hlt; lia). by rewrite Hinv.
Qed.

(** X3. Over bijective index maps, [permuteMatToOriginalDofs] returns a
    matrix of the shape of [mat] whose row [mapHMatDofToOriginalDof i]
    is the row [i] of [mat]. *)
Theorem permuteMatToOriginalDofs_moves_rows (h : HMatrix) (mat : Matrix)
    (rowOrColumn : RowColSelector) :
  let c := selectClusterTree h rowOrColumn in
  ClusterTree_bijective c →
  rows mat = numberOfDofs c →
  ∃ original,
    permuteMatToOriginalDofs h mat rowOrColumn = inr original ∧
    rows original = rows mat ∧ cols original = cols mat ∧
    ∀ i j, i < rows mat → j < cols mat →
      coeff original (mapHMatDofToOriginalDof c i) j = coeff mat i j.
Proof.
  intros c Hbij Hrows.
  destruct (permuteMatToOriginalDofs_spec indeterminate h mat rowOrColumn Hbij Hrows)
    as (P & HP & Hr & Hc & Hco).
  exists P. repeat split; [done..|].
  intros i j Hi Hj. destruct (Hbij i) as (_ & Hlt & _ & Hinv); [fold c; lia|].
  fold c in Hco. rewrite Hco by (fold c in Hlt; lia). by rewrite Hinv.
Qed.

(** X4. The round trip in the other direction: permuting a matrix given
    in the ordering of the tree to the original ordering and back gives
    the matrix again. *)
Theorem permute_round_trip_from_hmat (h : HMatrix) (mat : Matrix)
    (rowOrColumn : RowColSelector) :
  ClusterTree_bijective (selectClusterTree h rowOrColumn) →
  rows mat = numberOfDofs (selectClusterTree h rowOrColumn) →
  ∃ original permuted,
    permuteMatToOriginalDofs h mat rowOrColumn = inr original ∧
    permuteMatToHMatDofs h original rowOrColumn = inr permuted ∧
    mat_eq permuted mat.
Proof.
  intros Hbij Hrows.
  destruct (permuteMatToOriginalDofs_spec indeterminate h mat rowOrColumn Hbij Hrows)
    as (P & HP & HPr & HPc & HPco).
  destruct (permuteMatToHMatDofs_spec indeterminate h P rowOrColumn Hbij)
    as (Q & HQ & HQr & HQc & HQco); [congruence|].
  exists P, Q. repeat split; [done..|congruence|congruence|].
  intros i j Hi Hj. rewrite HQr, HPr in Hi. rewrite HQc, HPc in Hj.
  destruct (Hbij i) as (_ & Hlt & _ & Hinv); [lia|].
  rewrite HQco by lia. rewrite HPco by lia. by rewrite Hinv.
Qed.

(** ** The steps of [apply] *)

Lemma apply_steps (h : HMatrix) (X Y : Matrix) (trans : TransposeMode)
    (alpha beta : ValueType) :
  apply h X trans alpha beta Y =
  let Y1 := if (beta =? 0)%S then zeros Y else scale beta Y in
  match permuteMatToHMatDofs h X (readSide trans) with
  | inl e => (inl e, Y1)
  | inr xPermuted =>
      match permuteMatToHMatDofs h Y1 (writeSide trans) with
      | inl e => (inl e, Y1)
      | inr yPermuted =>
          match permuteMatToOriginalDofs h
                  (foldl (applyLeaf trans alpha xPermuted) yPermuted
                         (map_to_list (m_hMatrixData h))) ROW with
          | inl e => (inl e, Y1)
          | inr Y' => (inr (), Y')
          end
      end
  end.
Proof.
  unfold hmat.apply, mbind, M_bind, modify, get, call, put. cbv zeta.
  destruct trans; simpl;
    repeat match goal with
    | |- context [match ?x with inl _ => _ | inr _ => _ end] => destruct x
    end; done.
Qed.

Lemma scaled_shape (beta : ValueType) (Y : Matrix) :
  rows (if (beta =? 0)%S then zeros Y else scale beta Y) = rows Y ∧
  cols (if (beta =? 0)%S then zeros Y else scale beta Y) = cols Y.
Proof. by destruct (beta =? 0)%S. Qed.

Lemma scaled_coeff (beta : ValueType) (Y : Matrix) i k :
  coeff (if (beta =? 0)%S then zeros Y else scale beta Y) i k
  = (beta * coeff Y i k)%S.
Proof.
  destruct (beta =? 0)%S eqn:E; simpl; [|ring].
  apply sc_eqb_eq in E. subst. ring.
Qed.

Lemma permuteMatToOriginalDofs_inr_shape (h : HMatrix) (mat P : Matrix) sel :
  permuteMatToOriginalDofs h mat sel = inr P →
  rows P = rows mat ∧ cols P = cols mat.
Proof.
  intros HP.
  destruct (decide (rows mat = numberOfDofs (selectClusterTree h sel))) as [Hfit|Hne].
  - destruct (permuteMatToOriginalDofs_fits h mat sel Hfit) as (P' & HP' & HS).
    rewrite HP in HP'. by injection HP' as <-.
  - by rewrite permuteMatToOriginalDofs_misfit in HP.
Qed.

Lemma permuteMatToHMatDofs_inr_shape (h : HMatrix) (mat P : Matrix) sel :
  permuteMatToHMatDofs h mat sel = inr P →
  rows P = rows mat ∧ cols P = cols mat.
Proof.
  intros HP.
  destruct (decide (rows mat = numberOfDofs (selectClusterTree h sel))) as [Hfit|Hne].
  - destruct (permuteMatToHMatDofs_fits h mat sel Hfit) as (P' & HP' & HS).
    rewrite HP in HP'. by injection HP' as <-.
  - by rewrite permuteMatToHMatDofs_misfit in HP.
Qed.

(** X5. Whatever happens, [apply] keeps the shape of [Y]: on every
    path, with or without an exception, the [Y] it leaves has the rows
    and columns of the [Y] it was given. *)
Theorem apply_preserves_shape (h : HMatrix) (X Y : Matrix) (trans : TransposeMode)
    (alpha beta : ValueType) :
  rows (apply h X trans alpha beta Y).2 = rows Y ∧
  cols (apply h X trans alpha beta Y).2 = cols Y.
Proof.
  rewrite apply_steps. cbv zeta.
  pose proof (scaled_shape beta Y) as HY1.
  destruct (permuteMatToHMatDofs h X (readSide trans)) as [e|xP]; [done|].
  destruct (permuteMatToHMatDofs h _ (writeSide trans)) as [e|yP] eqn:HyP; [done|].
  apply permuteMatToHMatDofs_inr_shape in HyP.
  destruct (permuteMatToOriginalDofs h _ ROW) as [e|Y'] eqn:HY'; [done|].
  apply permuteMatToOriginalDofs_inr_shape in HY'.
  destruct (applyLeaf_fold trans alpha xP (map_to_list (m_hMatrixData h)) yP)
    as (Hr & Hc & _).
  simpl. destruct HY1, HyP, HY'. split; congruence.
Qed.

(** X6. When [X] or [Y] does not have the number of rows of the side it
    belongs to (for [NOTRANS], the columns of the operator for [X] and
    its rows for [Y]; the other way round for [TRANS]), [apply] throws
    the shape-mismatch error of [permuteMatToHMatDofs], and [Y] is left
    scaled by [beta] (zeroed when [beta] is zero): the scaling is not
    undone. *)
Theorem apply_shape_mismatch (h : HMatrix) (X Y : Matrix) (trans : TransposeMode)
    (alpha beta : ValueType) :
  rows X ≠ numberOfDofs (selectClusterTree h (readSide trans)) ∨
  rows Y ≠ numberOfDofs (selectClusterTree h (writeSide trans)) →
  apply h X trans alpha beta Y =
  (inl (runtime_error
     "HMatrix::permuteMatToHMatDofs: Input matrix has wrong number of rows."),
   if (beta =? 0)%S then zeros Y else scale beta Y).
Proof.
  intros Hbad. rewrite apply_steps. cbv zeta.
  destruct (decide (rows X = numberOfDofs (selectClusterTree h (readSide trans))))
    as [HX|HX].
  - destruct (permuteMatToHMatDofs_fits h X _ HX) as (xP & -> & _).
    destruct Hbad as [?|HY]; [done|].
    rewrite permuteMatToHMatDofs_misfit; [done|].
    by rewrite (proj1 (scaled_shape beta Y)).
  - by rewrite permuteMatToHMatDofs_misfit.
Qed.

(** X7. With [TRANS], an operator that is not square makes [apply]
    throw even for conforming [X] and [Y]: the result, which has as
    many rows as the operator has columns, is written back through the
    row cluster tree, whose shape check fails. [Y] is left scaled by
    [beta]. *)
Theorem apply_trans_nonsquare_throws (h : HMatrix) (X Y : Matrix)
    (alpha beta : ValueType) :
  HMatrix_rows h ≠ HMatrix_columns h →
  rows X = HMatrix_rows h →
  rows Y = HMatrix_columns h →
  apply h X TRANS alpha beta Y =
  (inl (runtime_error
     "HMatrix::permuteMatToOriginalDofs: Input matrix has wrong number of rows."),
   if (beta =? 0)%S then zeros Y else scale beta Y).
Proof.
  intros Hns HX HY. rewrite apply_steps. cbv zeta.
  destruct (permuteMatToHMatDofs_fits h X (readSide TRANS) HX) as (xP & -> & _).
  destruct (permuteMatToHMatDofs_fits h
              (if (beta =? 0)%S then zeros Y else scale beta Y) (writeSide TRANS))
    as (yP & -> & HyPr & _).
  { by rewrite (proj1 (scaled_shape beta Y)). }
  rewrite permuteMatToOriginalDofs_misfit; [done|].
  destruct (applyLeaf_fold TRANS alpha xP (map_to_list (m_hMatrixData h)) yP)
    as (Hr & _).
  rewrite Hr, HyPr, (proj1 (scaled_shape beta Y)), HY.
  unfold HMatrix_rows, HMatrix_columns, BlockClusterTree_rows,
    BlockClusterTree_columns in *. simpl. lia.
Qed.

(** ** The path on which [apply] returns *)

Lemma leafContribution_scale trans (alpha : ValueType) (xPermuted : Matrix) elem r k :
  leafContribution trans alpha xPermuted elem r k =
  (alpha * leafContribution trans 1%S xPermuted elem r k)%S.
Proof.
  unfold leafContribution.
  destruct trans; simpl; destruct (inRange _ r); rewrite ?times_guarded; ring.
Qed.

(** When the shapes fit and the output side has as many degrees of
    freedom as the row cluster tree, [apply] returns, and the entry
    [(i, k)] of the result is what the leaves add to the row to which
    the row cluster tree sends [i], plus [beta] times the entry of [Y]
    that the output side had put there. What a leaf adds is counted
    through the contiguous maps of its blocks, [leafAdds]. *)
Lemma apply_runs (h : HMatrix) (X Y : Matrix) (trans : TransposeMode)
    (alpha beta : ValueType) :
  let t := m_blockClusterTree h in
  let out := selectClusterTree h (writeSide trans) in
  ClusterTree_bijective (rowClusterTree t) →
  ClusterTree_bijective out →
  numberOfDofs out = numberOfDofs (rowClusterTree t) →
  rows X = numberOfDofs (selectClusterTree h (readSide trans)) →
  rows Y = numberOfDofs out →
  ∃ xPermuted Y',
    permuteMatToHMatDofs h X (readSide trans) = inr xPermuted ∧
    apply h X trans alpha beta Y = (inr (), Y') ∧
    rows Y' = rows Y ∧ cols Y' = cols Y ∧
    ∀ i k, i < rows Y → k < cols Y →
      coeff Y' i k =
      (sumOver (map_to_list (m_hMatrixData h))
         (λ elem, leafAdds trans alpha xPermuted (rows Y) (cols Y) elem
                    (mapOriginalDofToHMatDof (rowClusterTree t) i) k)
       + beta * coeff Y (mapHMatDofToOriginalDof out
                           (mapOriginalDofToHMatDof (rowClusterTree t) i)) k)%S.
Proof.
  intros t out Hrow Hout Hsame HX HY.
  destruct (scaled_shape beta Y) as [HY1r HY1c].
  destruct (permuteMatToHMatDofs_fits h X (readSide trans) HX) as (xP & HxP & _).
  destruct (permuteMatToHMatDofs_spec indeterminate h
              (if (beta =? 0)%S then zeros Y else scale beta Y)
              (writeSide trans) Hout)
    as (yP & HyP & HyPr & HyPc & HyPco); [by rewrite HY1r|].
  destruct (applyLeaf_fold trans alpha xP (map_to_list (m_hMatrixData h)) yP)
    as (Hfr & Hfc & Hfco).
  destruct (permuteMatToOriginalDofs_spec indeterminate h
              (foldl (applyLeaf trans alpha xP) yP (map_to_list (m_hMatrixData h)))
              ROW Hrow) as (Y' & HY' & HY'r & HY'c & HY'co).
  { rewrite Hfr, HyPr, HY1r, HY. exact Hsame. }
  exists xP, Y'. split; [done|]. split.
  { rewrite apply_steps. cbv zeta. by rewrite HxP, HyP, HY'. }
  split; [congruence|]. split; [congruence|].
  intros i k Hi Hk.
  assert (rows Y = numberOfDofs (rowClusterTree t)) as Hn by congruence.
  destruct (Hrow i) as (Hpi & _ & _ & _); [by rewrite <-Hn|].
  rewrite HY'co;
    [|rewrite Hfr, HyPr, HY1r; exact Hi|rewrite Hfc, HyPc, HY1c; exact Hk].
  rewrite Hfco;
    [|rewrite HyPr, HY1r, Hn; exact Hpi|rewrite HyPc, HY1c; exact Hk].
  rewrite HyPr, HyPc, HY1r, HY1c.
  rewrite HyPco;
    [|rewrite HY1r, Hn; exact Hpi|rewrite HY1c; exact Hk].
  by rewrite scaled_coeff.
Qed.

(** X8. The product in full, without transposition, for an input of a
    single column: for a well-formed tree whose leaves store the exact
    dense blocks of [A], and conforming [X] and [Y] of one column,
    [apply(X, Y, NOTRANS, alpha, beta)] returns and leaves
    [alpha * A * X + beta * Y] in [Y], for all [alpha] and [beta]. With
    one column the contiguous map of a block is the block. *)
Theorem apply_notrans_gemm (h : HMatrix) (A X Y : Matrix) (alpha beta : ValueType) :
  BlockClusterTree_wf (m_blockClusterTree h) →
  storesDense h A →
  rows A = HMatrix_rows h →
  cols A = HMatrix_columns h →
  rows X = HMatrix_columns h →
  rows Y = HMatrix_rows h →
  cols X = 1 →
  cols Y = cols X →
  ∃ Y', apply h X NOTRANS alpha beta Y = (inr (), Y') ∧
        rows Y' = rows Y ∧ cols Y' = cols Y ∧
        ∀ i k, i < rows Y → k < cols Y →
          coeff Y' i k = (alpha * coeff (matmul A X) i k + beta * coeff Y i k)%S.
Proof.
  intros Hwf Hstored HrA HcA HrX HrY Hone HcY.
  pose proof Hwf as (Hrow & Hcol & _).
  unfold HMatrix_rows, HMatrix_columns in *.
  unfold BlockClusterTree_rows, BlockClusterTree_columns in HrA, HcA, HrX, HrY.
  destruct (apply_runs h X Y NOTRANS alpha beta Hrow Hrow eq_refl HrX HrY)
    as (xP & Y' & HxP & Hrun & Hr & Hc & Hco).
  destruct (permuteMatToHMatDofs_spec indeterminate h X COL Hcol HrX)
    as (xP' & HxP' & HxPr & _ & HxPco).
  change (readSide NOTRANS) with COL in HxP.
  rewrite HxP in HxP'. injection HxP' as <-.
  exists Y'. split; [done|]. split; [done|]. split; [done|].
  intros i k Hi Hk. assert (k = 0) as -> by lia.
  rewrite Hco by done. simpl.
  destruct (Hrow i) as (Hpi & _ & Hinv & _); [lia|].
  replace (cols Y) with 1 by lia.
  rewrite (sumOver_ext _ _ (λ elem,
    (alpha * leafContribution NOTRANS 1 xP elem
               (mapOriginalDofToHMatDof (rowClusterTree (m_blockClusterTree h)) i) 0)%S)).
  2:{ intros elem Helem.
      rewrite (dense_leafAdds_single_column h A xP NOTRANS alpha (rows Y) _ elem
                 Hwf Hstored) by (simpl; congruence || done).
      apply leafContribution_scale. }
  rewrite sumOver_mul_l.
  rewrite (dense_contributions h A X xP); [|done|done| |done].
  - rewrite Hinv, HcA. done.
  - intros p Hp. apply HxPco; [|lia].
    unfold BlockClusterTree_columns in Hp. lia.
Qed.

(** X9. A matrix without data (never initialised, or reset) adds
    nothing: without transposition [apply] returns and leaves
    [beta * Y], whatever [alpha] and [X] are, and no error tells the
    caller that the operator was missing. *)
Theorem apply_notrans_uninitialized (h : HMatrix) (X Y : Matrix)
    (alpha beta : ValueType) :
  m_hMatrixData h = ∅ →
  ClusterTree_bijective (rowClusterTree (m_blockClusterTree h)) →
  rows X = HMatrix_columns h →
  rows Y = HMatrix_rows h →
  ∃ Y', apply h X NOTRANS alpha beta Y = (inr (), Y') ∧ mat_eq Y' (scale beta Y).
Proof.
  intros Hempty Hrow HrX HrY.
  destruct (apply_runs h X Y NOTRANS alpha beta Hrow Hrow eq_refl HrX HrY)
    as (xP & Y' & _ & Hrun & Hr & Hc & Hco).
  exists Y'. split; [done|]. split; [done|]. split; [done|].
  intros i k Hi Hk. rewrite Hr in Hi. rewrite Hc in Hk.
  rewrite Hco by done. rewrite Hempty, map_to_list_empty. simpl.
  destruct (Hrow i) as (_ & _ & -> & _); [unfold HMatrix_rows in HrY;
    unfold BlockClusterTree_rows in HrY; lia|].
  ring.
Qed.

(** ** The transposed product with exact dense leaves *)

(** With exact dense leaves and [TRANS], the leaves together add to the
    row [r] of the permuted output the column [r] of the permuted
    operator times the input. *)
Lemma dense_contributions_trans (h : HMatrix) (A X xPermuted : Matrix) (r k : nat) :
  let t := m_blockClusterTree h in
  BlockClusterTree_wf t →
  storesDense h A →
  (∀ p, p < BlockClusterTree_rows t →
     coeff xPermuted p k =
     coeff X (mapHMatDofToOriginalDof (rowClusterTree t) p) k) →
  r < BlockClusterTree_columns t →
  sumOver (map_to_list (m_hMatrixData h))
          (λ elem, leafContribution TRANS 1%S xPermuted elem r k) =
  sumOver (seq 0 (BlockClusterTree_rows t))
          (λ i, coeff A i (mapHMatDofToOriginalDof (columnClusterTree t) r)
                * coeff X i k)%S.
Proof.
  intros t (Hrow & Hcol & Hnd & Hbounds & Htile) Hstored HxP Hr.
  set (g := λ p, (coeff A (mapHMatDofToOriginalDof (rowClusterTree t) p)
                          (mapHMatDofToOriginalDof (columnClusterTree t) r)
                  * coeff X (mapHMatDofToOriginalDof (rowClusterTree t) p) k)%S).
  set (F := λ n : BlockClusterTreeNode,
         sumOver (seq 0 (BlockClusterTree_rows t))
                 (λ p, if covers n p r then g p else 0%S)).
  rewrite (sumOver_ext _ _ (λ elem, F elem.1)).
  2:{ intros [n d] Hin%elem_of_map_to_list.
      destruct Hstored as [Hkeys Hdense].
      destruct (Hdense n d Hin) as (a & -> & Hra & Hca & Hco).
      assert (n ∈ leafNodes t) as Hleaf by (apply Hkeys; by eexists).
      destruct (Hbounds n Hleaf) as [Hrb Hcb].
      unfold leafContribution, F, covers. simpl.
      destruct (inRange (columnRange n) r) eqn:Hin_r; simpl.
      2:{ rewrite (sumOver_ext _ _ (λ _, 0%S)), sumOver_zero; [done|].
          intros p _. by rewrite andb_false_r. }
      rewrite times_guarded.
      rewrite (sumOver_ext (seq 0 (BlockClusterTree_rows t)) _
                 (λ p, if inRange (rowRange n) p then g p else 0%S))
        by (intros p _; by rewrite andb_true_r).
      destruct (rowRange n) as [r0 r1] eqn:Hrr. simpl in *.
      rewrite sumOver_inRange by done. rewrite Hra.
      rewrite <-sumOver_mul_l. apply sumOver_ext.
      intros j [_ Hj]%elem_of_seq. unfold g.
      unfold inRange in Hin_r.
      apply andb_prop in Hin_r as [H1%Nat.leb_le H2%Nat.ltb_lt].
      rewrite Hco by lia. rewrite HxP by lia.
      replace ((columnRange n).1 + (r - (columnRange n).1)) with r by lia.
      fold t. ring. }
  rewrite <-(sumOver_fmap fst _ F).
  rewrite (sumOver_Permutation _ _ F (storesDense_keys h A Hnd Hstored)).
  unfold F. rewrite sumOver_exchange.
  rewrite (sumOver_ext _ _ g).
  2:{ intros p [_ Hp]%elem_of_seq.
      apply (sumOver_guard_one (λ n, covers n p r)). apply Htile; [lia|done]. }
  unfold g.
  apply (sumOver_reindex (rowClusterTree t)
           (λ i, (coeff A i (mapHMatDofToOriginalDof (columnClusterTree t) r)
                  * coeff X i k)%S)).
  done.
Qed.

(** X10. The transposed product as the code computes it, for an input
    of a single column. For a square operator over a well-formed tree
    with exact dense leaves and conforming [X] and [Y] of one column,
    [apply(X, Y, TRANS, alpha, beta)] returns, and the row [i] of the
    result is the row
    [q i = mapHMatDofToOriginalDof_col (mapOriginalDofToHMatDof_row i)]
    of [alpha * transpose(A) * X + beta * Y]. When the two cluster
    trees order the degrees of freedom alike, [q] is the identity and
    the result is [alpha * transpose(A) * X + beta * Y] itself. *)
Theorem apply_trans_dense (h : HMatrix) (A X Y : Matrix) (alpha beta : ValueType) :
  let t := m_blockClusterTree h in
  let q := λ i, mapHMatDofToOriginalDof (columnClusterTree t)
                  (mapOriginalDofToHMatDof (rowClusterTree t) i) in
  BlockClusterTree_wf t →
  storesDense h A →
  rows A = HMatrix_rows h →
  cols A = HMatrix_columns h →
  HMatrix_rows h = HMatrix_columns h →
  rows X = HMatrix_rows h →
  rows Y = HMatrix_columns h →
  cols X = 1 →
  cols Y = cols X →
  ∃ Y', apply h X TRANS alpha beta Y = (inr (), Y') ∧
        rows Y' = rows Y ∧ cols Y' = cols Y ∧
        (∀ i k, i < rows Y → k < cols Y →
           coeff Y' i k =
           (alpha * coeff (matmul (transpose A) X) (q i) k
            + beta * coeff Y (q i) k)%S) ∧
        ((∀ i, i < rows Y →
            mapOriginalDofToHMatDof (rowClusterTree t) i =
            mapOriginalDofToHMatDof (columnClusterTree t) i) →
         ∀ i k, i < rows Y → k < cols Y →
           coeff Y' i k =
           (alpha * coeff (matmul (transpose A) X) i k + beta * coeff Y i k)%S).
Proof.
  intros t q Hwf Hstored HrA HcA Hsq HrX HrY Hone HcY.
  pose proof Hwf as (Hrow & Hcol & _).
  unfold HMatrix_rows, HMatrix_columns in *.
  unfold BlockClusterTree_rows, BlockClusterTree_columns in HrA, HcA, Hsq, HrX, HrY.
  fold t in HrA, HcA, Hsq, HrX, HrY.
  destruct (apply_runs h X Y TRANS alpha beta Hrow Hcol (eq_sym Hsq) HrX HrY)
    as (xP & Y' & HxP & Hrun & Hr & Hc & Hco).
  destruct (permuteMatToHMatDofs_spec indeterminate h X ROW Hrow HrX)
    as (xP' & HxP' & HxPr & _ & HxPco).
  change (readSide TRANS) with ROW in HxP.
  rewrite HxP in HxP'. injection HxP' as <-.
  assert (∀ i k, i < rows Y → k < cols Y →
           coeff Y' i k =
           (alpha * coeff (matmul (transpose A) X) (q i) k
            + beta * coeff Y (q i) k)%S) as Hmain.
  { intros i k Hi Hk. assert (k = 0) as -> by lia.
    rewrite Hco by done. simpl.
    destruct (Hrow i) as (Hpi & _ & _ & _); [fold t; lia|]. fold t in Hpi.
    replace (cols Y) with 1 by lia.
    rewrite (sumOver_ext _ _ (λ elem,
      (alpha * leafContribution TRANS 1 xP elem
                 (mapOriginalDofToHMatDof (rowClusterTree t) i) 0)%S)).
    2:{ intros elem Helem.
        rewrite (dense_leafAdds_single_column h A xP TRANS alpha (rows Y) _ elem
                   Hwf Hstored) by (by rewrite ?HxPr, ?HrX).
        apply leafContribution_scale. }
    rewrite sumOver_mul_l.
    rewrite (dense_contributions_trans h A X xP); [|done|done| |].
    - fold t. unfold BlockClusterTree_rows. by rewrite HrA.
    - intros p Hp. apply HxPco; [|lia].
      unfold BlockClusterTree_rows in Hp. fold t in Hp. lia.
    - unfold BlockClusterTree_columns. fold t. lia. }
  exists Y'. split; [done|]. split; [done|]. split; [done|]. split; [done|].
  intros Hsame i k Hi Hk. rewrite Hmain by done.
  assert (q i = i) as ->; [|done].
  unfold q. rewrite Hsame by done.
  destruct (Hcol i) as (_ & _ & Hinv & _); [fold t; lia|]. exact Hinv.
Qed.

(** ** Initialising again *)

Lemma initialize_tree_only (c : HMatrixCompressor ValueType) (h1 h2 : HMatrix) :
  m_blockClusterTree h1 = m_blockClusterTree h2 →
  initialize c h1 = initialize c h2.
Proof.
  intros Ht. unfold initialize, reset, modify, get.
  unfold mbind at 1 2 4 5. unfold M_bind at 1 2 4 5. simpl. by rewrite Ht.
Qed.

(** X11. [initialize] starts from nothing: what an earlier
    initialisation stored, in full or up to a failure, has no influence
    on the outcome and the data of the next one. *)
Theorem initialize_forgets (c1 c2 : HMatrixCompressor ValueType) (h : HMatrix) :
  initialize c2 (initialize c1 h).2 = initialize c2 h.
Proof.
  apply initialize_tree_only.
  destruct (initialize_spec c1 h) as (h' & Hrun & Htree & _).
  by rewrite Hrun.
Qed.

(** X12. [reset] after any initialisation, successful or failed, gives
    back the matrix as it is constructed from the tree alone: the same
    tree, no data, [isInitialized] false. *)
Theorem reset_after_initialize (c : HMatrixCompressor ValueType) (h : HMatrix) :
  reset (initialize c h).2 = (inr (), HMatrix_new (m_blockClusterTree h)) ∧
  isInitialized (reset (initialize c h).2).2 = false.
Proof.
  destruct (initialize_spec c h) as (h' & Hrun & Htree & _).
  rewrite Hrun. unfold reset, modify, HMatrix_new. simpl. by rewrite Htree.
Qed.

End HMatrixFurther.

(** * Further runs on concrete operators *)

Section FurtherRuns.

Import hmat Examples.

Local Open Scope Z_scope.

Lemma tree22S_wf : BlockClusterTree_wf tree22S.
Proof.
  split; [apply swapTree_bijective|]. split; [apply swapTree_bijective|].
  split; [|split].
  - apply (bool_decide_unpack _). by vm_compute.
  - intros n Hn. simpl in Hn.
    repeat (apply elem_of_cons in Hn as [->|Hn]); [vm_compute; lia..|].
    by apply elem_of_nil in Hn.
  - intros i j Hi Hj. change (i < 2)%nat in Hi. change (j < 2)%nat in Hj.
    destruct i as [|[|i]]; [| |lia]; (destruct j as [|[|j]]; [| |lia]);
      by vm_compute.
Qed.

Lemma h22S_tree : m_blockClusterTree h22S = tree22S.
Proof. apply (initialize_dense_stores tree22S A22). Qed.

Lemma h22S_storesDense : storesDense h22S A22.
Proof. apply (initialize_dense_stores tree22S A22). Qed.

Lemma permuteMatToOriginalDofs_shape_mismatch_witness :
  const_method
    (λ this, permuteMatToOriginalDofs garbage this (ofList 3 1 [[1]; [2]; [3]]) COL)
    h22 =
  (inl (runtime_error
     "HMatrix::permuteMatToOriginalDofs: Input matrix has wrong number of rows."),
   h22).
Proof.
  apply (permuteMatToOriginalDofs_shape_mismatch garbage h22
           (ofList 3 1 [[1]; [2]; [3]]) COL).
  vm_compute. lia.
Defined.

Lemma permuteMatToHMatDofs_moves_rows_witness :
  ∃ permuted,
    permuteMatToHMatDofs garbage h22 A22 COL = inr permuted ∧
    coeff permuted (swap2 0) 1 = coeff A22 0 1.
Proof.
  destruct (permuteMatToHMatDofs_moves_rows garbage h22 A22 COL)
    as (P & HP & _ & _ & Hco).
  - unfold selectClusterTree. rewrite h22_tree. apply swapTree_bijective.
  - reflexivity.
  - exists P. split; [exact HP|]. apply (Hco 0%nat 1%nat); vm_compute; lia.
Defined.

Lemma permuteMatToOriginalDofs_moves_rows_witness :
  ∃ original,
    permuteMatToOriginalDofs garbage h22 A22 COL = inr original ∧
    coeff original (swap2 1) 0 = coeff A22 1 0.
Proof.
  destruct (permuteMatToOriginalDofs_moves_rows garbage h22 A22 COL)
    as (P & HP & _ & _ & Hco).
  - unfold selectClusterTree. rewrite h22_tree. apply swapTree_bijective.
  - reflexivity.
  - exists P. split; [exact HP|]. apply (Hco 1%nat 0%nat); vm_compute; lia.
Defined.

Lemma permute_round_trip_from_hmat_witness :
  ∃ original permuted,
    permuteMatToOriginalDofs garbage h22 A22 COL = inr original ∧
    permuteMatToHMatDofs garbage h22 original COL = inr permuted ∧
    mat_eq permuted A22.
Proof.
  apply (permute_round_trip_from_hmat garbage h22 A22 COL).
  - unfold selectClusterTree. rewrite h22_tree. apply swapTree_bijective.
  - reflexivity.
Defined.

(** [X] with three rows against an operator of two columns. *)
Lemma apply_shape_mismatch_witness :
  apply garbage h22 (ofList 3 1 [[1]; [2]; [3]]) NOTRANS 2 3 (ofList 2 1 [[1]; [2]]) =
  (inl (runtime_error
     "HMatrix::permuteMatToHMatDofs: Input matrix has wrong number of rows."),
   if (3 =? 0)%S then zeros (ofList 2 1 [[1]; [2]])
   else scale 3 (ofList 2 1 [[1]; [2]])).
Proof.
  apply (apply_shape_mismatch garbage h22 (ofList 3 1 [[1]; [2]; [3]])
           (ofList 2 1 [[1]; [2]]) NOTRANS 2 3).
  left. vm_compute. lia.
Defined.

Example apply_shape_mismatch_run :
  toList (apply garbage h22 (ofList 3 1 [[1]; [2]; [3]]) NOTRANS 2 3
                (ofList 2 1 [[1]; [2]])).2 = [[3]; [6]].
Proof. by vm_compute. Qed.

(** The 2 x 1 operator with [TRANS]. *)
Lemma apply_trans_nonsquare_throws_witness :
  apply garbage h21 (ofList 2 1 [[1]; [1]]) TRANS 1 2 (ofList 1 1 [[9]]) =
  (inl (runtime_error
     "HMatrix::permuteMatToOriginalDofs: Input matrix has wrong number of rows."),
   if (2 =? 0)%S then zeros (ofList 1 1 [[9]]) else scale 2 (ofList 1 1 [[9]])).
Proof.
  apply (apply_trans_nonsquare_throws garbage h21 (ofList 2 1 [[1]; [1]])
           (ofList 1 1 [[9]]) 1 2).
  - vm_compute. lia.
  - reflexivity.
  - reflexivity.
Defined.

Lemma apply_notrans_gemm_witness :
  ∃ Y', apply garbage h22 (ofList 2 1 [[5]; [7]]) NOTRANS 2 3 (ofList 2 1 [[1]; [2]])
        = (inr (), Y') ∧
        coeff Y' 1 0 =
        (2 * coeff (matmul A22 (ofList 2 1 [[5]; [7]])) 1 0
         + 3 * coeff (ofList 2 1 [[1]; [2]]) 1 0)%S.
Proof.
  destruct (apply_notrans_gemm garbage h22 A22 (ofList 2 1 [[5]; [7]])
              (ofList 2 1 [[1]; [2]]) 2 3)
    as (Y' & Hrun & _ & _ & Hco).
  - rewrite h22_tree. apply tree22_wf.
  - apply h22_storesDense.
  - reflexivity.
  - reflexivity.
  - reflexivity.
  - reflexivity.
  - reflexivity.
  - reflexivity.
  - exists Y'. split; [exact Hrun|]. apply (Hco 1%nat 0%nat); vm_compute; lia.
Defined.

(** The matrix constructed from the tree alone. *)
Lemma apply_notrans_uninitialized_witness :
  ∃ Y', apply garbage (HMatrix_new tree22) I2 NOTRANS 5 3 (ofList 2 1 [[1]; [2]])
        = (inr (), Y') ∧
        mat_eq Y' (scale 3 (ofList 2 1 [[1]; [2]])).
Proof.
  apply (apply_notrans_uninitialized garbage (HMatrix_new tree22) I2
           (ofList 2 1 [[1]; [2]]) 5 3).
  - reflexivity.
  - apply keepTree_bijective.
  - reflexivity.
  - reflexivity.
Defined.

Lemma apply_notrans_alpha_zero_witness :
  ∃ Y', apply garbage h22 I2 NOTRANS 0%S 3 (ofList 2 1 [[1]; [2]]) = (inr (), Y') ∧
        mat_eq Y' (scale 3 (ofList 2 1 [[1]; [2]])).
Proof.
  apply (apply_notrans_alpha_zero garbage h22 I2 (ofList 2 1 [[1]; [2]]) 3).
  - rewrite h22_tree. apply keepTree_bijective.
  - rewrite h22_tree. apply swapTree_bijective.
  - reflexivity.
  - reflexivity.
Defined.

(** Rows and columns stored in the same, swapped, order: the transposed
    product comes out right. *)
Lemma apply_trans_dense_witness :
  ∃ Y', apply garbage h22S (ofList 2 1 [[5]; [7]]) TRANS 2 3 (ofList 2 1 [[1]; [2]])
        = (inr (), Y') ∧
        ∀ i k, (i < 2)%nat → (k < 1)%nat →
          coeff Y' i k =
          (2 * coeff (matmul (transpose A22) (ofList 2 1 [[5]; [7]])) i k
           + 3 * coeff (ofList 2 1 [[1]; [2]]) i k)%S.
Proof.
  destruct (apply_trans_dense garbage h22S A22 (ofList 2 1 [[5]; [7]])
              (ofList 2 1 [[1]; [2]]) 2 3)
    as (Y' & Hrun & _ & _ & _ & Hsame).
  - rewrite h22S_tree. apply tree22S_wf.
  - apply h22S_storesDense.
  - reflexivity.
  - reflexivity.
  - reflexivity.
  - reflexivity.
  - reflexivity.
  - reflexivity.
  - reflexivity.
  - exists Y'. split; [exact Hrun|]. apply Hsame.
    intros i _. by rewrite h22S_tree.
Defined.

Example apply_trans_dense_run :
  toList (apply garbage h22S (ofList 2 1 [[5]; [7]]) TRANS 2 3
                (ofList 2 1 [[1]; [2]])).2 = [[55]; [82]].
Proof. by vm_compute. Qed.

End FurtherRuns.

(** * Further properties of [PiecewiseConstantScalarSpace] *)

Section SpaceFurther.

Import Bempp.

Variable view : GridView.
Variable segment : GridSegment.

Local Abbreviation inSeg := (λ e : Entity, inSegment view segment e = true).
Local Abbreviation sp := (PiecewiseConstantScalarSpace_new view segment).

(** The list of global degrees of freedom after the loop has visited
    [pre]: one entry per contained element, in the order of the visit,
    holding the only local degree of freedom of that element. *)
Lemma assign_loop_global2local (pre : list Entity) :
  let st := foldl (assignStep view segment) (assignState0 (entityCount view 0)) pre in
  length (localDofs st) = 1 ∧
  global2local st =
    (λ e, [ {| entityIndex := elementMapper view e; dofIndex := 0 |} ])
      <$> filter inSeg pre.
Proof.
  induction pre as [|e pre IH] using rev_ind; cbv zeta; [done|].
  destruct IH as [Hlen IH].
  rewrite foldl_app, filter_app, fmap_app, filter_cons, filter_nil.
  set (st := foldl (assignStep view segment) (assignState0 (entityCount view 0)) pre) in *.
  simpl. unfold assignStep. fold (inSegment view segment e).
  destruct (decide (inSegment view segment e = true)) as [Hin|Hin].
  - rewrite Hin. simpl. rewrite length_insert, IH. split; [done|].
    f_equal. destruct (localDofs st) as [|ld [|??]]; done.
  - apply not_true_is_false in Hin. rewrite Hin. simpl.
    by rewrite IH, app_nil_r.
Qed.

Lemma m_global2localDofs_closed_form :
  m_global2localDofs sp =
    (λ e, [ {| entityIndex := elementMapper view e; dofIndex := 0 |} ])
      <$> filter inSeg (entities view).
Proof. apply (assign_loop_global2local (entities view)). Qed.

(** The position of an element in the filtered list. *)
Lemma filter_lookup_position {A} (P : A → Prop) `{!∀ x, Decision (P x)}
    (l : list A) (k : nat) (x : A) :
  l !! k = Some x → P x →
  filter P l !! length (filter P (take k l)) = Some x.
Proof.
  intros Hk Hx.
  enough (filter P (take k l ++ x :: drop (S k) l)
            !! length (filter P (take k l)) = Some x) as Hgoal
    by (by rewrite take_drop_middle in Hgoal).
  rewrite filter_app, filter_cons, decide_True by done.
  by rewrite lookup_app_r, Nat.sub_diag.
Qed.

Lemma filter_lookup_origin {A} (P : A → Prop) `{!∀ x, Decision (P x)}
    (l : list A) (g : nat) (x : A) :
  filter P l !! g = Some x →
  ∃ k, l !! k = Some x ∧ P x ∧ length (filter P (take k l)) = g.
Proof.
  revert g. induction l as [|a l IH]; intros g; [by rewrite filter_nil|].
  rewrite filter_cons. destruct (decide (P a)) as [Ha|Ha].
  - destruct g as [|g]; simpl.
    + intros [= ->]. by exists 0.
    + intros (k & Hk & Hx & Hlen)%IH. exists (S k). split; [done|]. split; [done|].
      simpl. rewrite filter_cons, decide_True by done. simpl. by rewrite Hlen.
  - intros (k & Hk & Hx & Hlen)%IH. exists (S k). split; [done|]. split; [done|].
    simpl. by rewrite filter_cons, decide_False.
Qed.

(** X14. From local to global and back: for a contained element of a
    well-numbered view, the global degree of freedom that
    [getGlobalDofs] reports leads [global2localDofs] back to the only
    local degree of freedom of that element. *)
Theorem local_global_local (k : nat) (e : Entity) :
  GridView_wf view →
  entities view !! k = Some e →
  inSegment view segment e = true →
  ∃ g, getGlobalDofs sp e = Some [g] ∧
       global2localDofs sp [g] =
       Some [[ {| entityIndex := elementMapper view e; dofIndex := 0 |} ]].
Proof.
  intros [Hnd Hlt] Hk He.
  destruct (assign_loop_invariant view segment (entities view) Hnd Hlt)
    as (_ & _ & _ & _ & Hlook).
  exists (Z.of_nat (containedBefore view segment k)). split.
  - unfold getGlobalDofs. simpl. rewrite (Hlook k e Hk), He. done.
  - unfold global2localDofs, atGlobalDof. simpl.
    rewrite (proj2 (Z.ltb_ge _ _)) by lia. rewrite Nat2Z.id.
    pose proof m_global2localDofs_closed_form as Hcf. simpl in Hcf. rewrite Hcf.
    rewrite list_lookup_fmap. unfold containedBefore.
    by rewrite (filter_lookup_position _ _ k e Hk He).
Qed.

(** X15. From global to local and back: every global degree of freedom
    below [globalDofCount] belongs to exactly one local degree of
    freedom, number 0 of a contained element of the view, and
    [getGlobalDofs] of that element reports this global degree of
    freedom. *)
Theorem global_local_global (g : nat) :
  GridView_wf view →
  g < globalDofCount sp →
  ∃ e, e ∈ entities view ∧ inSegment view segment e = true ∧
       global2localDofs sp [Z.of_nat g] =
       Some [[ {| entityIndex := elementMapper view e; dofIndex := 0 |} ]] ∧
       getGlobalDofs sp e = Some [Z.of_nat g].
Proof.
  intros [Hnd Hlt] Hg.
  destruct (assign_loop_invariant view segment (entities view) Hnd Hlt)
    as (_ & _ & _ & _ & Hlook).
  pose proof m_global2localDofs_closed_form as Hcf.
  unfold globalDofCount in Hg. rewrite Hcf, length_fmap in Hg.
  destruct (lookup_lt_is_Some_2 _ _ Hg) as [e He].
  destruct (filter_lookup_origin _ _ _ _ He) as (k & Hk & Hin & Hlen).
  exists e. split; [by eapply list_elem_of_lookup_2|]. split; [done|]. split.
  - unfold global2localDofs, atGlobalDof. simpl.
    rewrite (proj2 (Z.ltb_ge _ _)) by lia. rewrite Nat2Z.id.
    simpl in Hcf. rewrite Hcf, list_lookup_fmap, He. done.
  - unfold getGlobalDofs. simpl. rewrite (Hlook k e Hk), Hin. by rewrite Hlen.
Qed.

(** X16. There are never more global degrees of freedom than elements:
    over a well-numbered view [globalDofCount] is at most
    [flatLocalDofCount], and the vector of the local-to-global map has
    one slot per element. *)
Theorem globalDofCount_le_flatLocalDofCount :
  GridView_wf view →
  globalDofCount sp ≤ flatLocalDofCount sp ∧
  length (m_local2globalDofs sp) = flatLocalDofCount sp.
Proof.
  intros [Hnd Hlt].
  destruct (assign_loop_invariant view segment (entities view) Hnd Hlt)
    as (_ & Hg2l & Hl2g & _ & _).
  split; [|exact Hl2g].
  unfold globalDofCount, flatLocalDofCount. simpl. rewrite Hg2l.
  etrans; [apply length_filter|].
  rewrite <-(length_fmap (elementMapper view)).
  trans (length (seq 0 (entityCount view 0))); [|by rewrite length_seq].
  apply submseteq_length, NoDup_submseteq; [done|].
  intros i (e & -> & He)%list_elem_of_fmap.
  apply elem_of_seq. specialize (Hlt e He). lia.
Qed.

End SpaceFurther.

Section SpaceFurtherRuns.

Import Bempp.

Lemma view3_wf : GridView_wf Examples.view3.
Proof.
  split.
  - apply (bool_decide_unpack _). by vm_compute.
  - intros e He. simpl in He.
    repeat (apply elem_of_cons in He as [->|He]); [vm_compute; lia..|].
    by apply elem_of_nil in He.
Qed.

Lemma local_global_local_witness :
  ∃ g, getGlobalDofs
         (PiecewiseConstantScalarSpace_new Examples.view3 Examples.segment3)
         {| entityId := 1; type := Examples.triangle |} = Some [g] ∧
       global2localDofs
         (PiecewiseConstantScalarSpace_new Examples.view3 Examples.segment3) [g] =
       Some [[ {| entityIndex := 1; dofIndex := 0 |} ]].
Proof.
  apply (local_global_local Examples.view3 Examples.segment3 2
           {| entityId := 1; type := Examples.triangle |}).
  - apply view3_wf.
  - reflexivity.
  - reflexivity.
Defined.

Lemma global_local_global_witness :
  ∃ e, e ∈ entities Examples.view3 ∧
       inSegment Examples.view3 Examples.segment3 e = true ∧
       global2localDofs
         (PiecewiseConstantScalarSpace_new Examples.view3 Examples.segment3) [1%Z] =
       Some [[ {| entityIndex := elementMapper Examples.view3 e; dofIndex := 0 |} ]] ∧
       getGlobalDofs
         (PiecewiseConstantScalarSpace_new Examples.view3 Examples.segment3) e =
       Some [1%Z].
Proof.
  apply (global_local_global Examples.view3 Examples.segment3 1).
  - apply view3_wf.
  - vm_compute. lia.
Defined.

Lemma globalDofCount_le_flatLocalDofCount_witness :
  globalDofCount (PiecewiseConstantScalarSpace_new Examples.view3 Examples.segment3)
  ≤ flatLocalDofCount
      (PiecewiseConstantScalarSpace_new Examples.view3 Examples.segment3) ∧
  length (m_local2globalDofs
            (PiecewiseConstantScalarSpace_new Examples.view3 Examples.segment3)) =
  flatLocalDofCount
    (PiecewiseConstantScalarSpace_new Examples.view3 Examples.segment3).
Proof.
  apply (globalDofCount_le_flatLocalDofCount Examples.view3 Examples.segment3).
  apply view3_wf.
Defined.

End SpaceFurtherRuns.

(** * Properties of [PiecewiseLinearContinuousScalarSpace] *)

Section LinearSpace.

Import BemppLinear.

Variable view : GridView.
Variable gridDim : nat.

Local Abbreviation vertexIndex e i :=
  (IndexSet_subEntityIndex (indexSet view) e i gridDim).
Local Abbreviation localDofOf e i :=
  {| entityIndex := elementIndexOf view e; dofIndex := i |}.

(** The loop over the vertices, stopped after [m] of them. *)
Lemma assignVertices_prefix (e : Entity) (gd0 : list GlobalDofIndex)
    (g2l : list (list LocalDof)) (m : nat) :
  m ≤ length gd0 →
  let r := assignVertices view gridDim e m (gd0, g2l) in
  r.1 = ((λ i, vertexIndex e i) <$> seq 0 m) ++ drop m gd0 ∧
  length r.2 = length g2l ∧
  ∀ g, r.2 !! g =
       (λ l, l ++ ((λ i, localDofOf e i)
                     <$> filter (λ i, vertexIndex e i = g) (seq 0 m)))
         <$> (g2l !! g).
Proof.
  unfold assignVertices. induction m as [|m IH]; intros Hm; cbv zeta.
  - simpl. rewrite drop_0. split; [done|]. split; [done|].
    intros g. destruct (g2l !! g); simpl; [|done]. by rewrite app_nil_r.
  - rewrite seq_S, foldl_app. simpl.
    destruct IH as (H1 & H2 & H3); [lia|].
    destruct (foldl _ (gd0, g2l) (seq 0 m)) as [gd g2l'] eqn:Hfold.
    simpl in *. subst gd. split; [|split].
    + rewrite fmap_app. simpl. rewrite <-app_assoc. simpl.
      rewrite insert_app_r_alt by (rewrite length_fmap, length_seq; lia).
      rewrite length_fmap, length_seq, Nat.sub_diag.
      destruct (lookup_lt_is_Some_2 gd0 m) as [x Hx]; [lia|].
      by rewrite (drop_S _ _ _ Hx).
    + by rewrite length_alter.
    + intros g. rewrite filter_app, filter_cons, filter_nil, fmap_app.
      destruct (decide (vertexIndex e m = g)) as [<-|Hne].
      * rewrite list_lookup_alter_eq, H3. destruct (g2l !! _); simpl; [|done].
        by rewrite <-app_assoc.
      * rewrite list_lookup_alter_ne by done. rewrite H3.
        destruct (g2l !! g); simpl; [|done]. by rewrite app_nil_r.
Qed.

(** One element: its vector becomes the indices of its vertices, and
    each vertex is entered under its index. *)
Lemma assignElement_spec (st : gmap EntityIndex (list GlobalDofIndex) * list (list LocalDof))
    (e : Entity) :
  let st' := assignElement view gridDim st e in
  st'.1 = <[elementIndexOf view e := vertexIndices view gridDim e]> st.1 ∧
  length st'.2 = length st.2 ∧
  ∀ g, st'.2 !! g = (λ l, l ++ localDofsAt view gridDim [e] g) <$> (st.2 !! g).
Proof.
  cbv zeta. unfold assignElement.
  destruct (assignVertices_prefix e
              (resize (vertexCountOf gridDim e) 0
                 (default [] (st.1 !! elementIndexOf view e)))
              st.2 (vertexCountOf gridDim e)) as (H1 & H2 & H3).
  { by rewrite length_resize. }
  destruct (assignVertices _ _ _ _ _) as [gd g2l']. simpl in *.
  split; [|split; [done|]].
  - rewrite H1, drop_ge by (by rewrite length_resize). by rewrite app_nil_r.
  - intros g. rewrite H3. unfold localDofsAt. simpl. by rewrite app_nil_r.
Qed.

(** The [while] loop over the elements [pre]. *)
Lemma assignDofs_loop (N : nat) (pre : list Entity) :
  let st := foldl (assignElement view gridDim) (∅, replicate N []) pre in
  length st.2 = N ∧
  (∀ g, st.2 !! g =
        (λ _, localDofsAt view gridDim pre g)
          <$> (replicate N ([] : list LocalDof) !! g)) ∧
  (NoDup (elementIndexOf view <$> pre) →
   ∀ k, st.1 !! k =
        (λ p, vertexIndices view gridDim p.2)
          <$> list_find (λ e, elementIndexOf view e = k) pre).
Proof.
  induction pre as [|e pre IH] using rev_ind; cbv zeta.
  - simpl. rewrite length_replicate. split; [done|]. split.
    + intros g. destruct (replicate N _ !! g) as [l|] eqn:E; [|done].
      by apply lookup_replicate in E as [-> _].
    + intros _ k. by rewrite lookup_empty.
  - rewrite foldl_app. simpl.
    destruct IH as (IH1 & IH2 & IH3).
    destruct (assignElement_spec
                (foldl (assignElement view gridDim) (∅, replicate N []) pre) e)
      as (H1 & H2 & H3).
    split; [congruence|]. split.
    + intros g. rewrite H3, IH2. unfold localDofsAt at 3. rewrite bind_app.
      by destruct (replicate N _ !! g).
    + intros Hnd k. rewrite fmap_app in Hnd.
      apply NoDup_app in Hnd as (Hnd & Hfresh & _).
      rewrite H1.
      destruct (decide (elementIndexOf view e = k)) as [<-|Hne].
      * rewrite lookup_insert_eq.
        rewrite list_find_app_r.
        2:{ apply list_find_None, Forall_forall. intros e' He' Heq.
            apply (Hfresh (elementIndexOf view e')).
            - by apply list_elem_of_fmap_2.
            - rewrite Heq. csimpl. left. }
        simpl. by rewrite decide_True.
      * rewrite lookup_insert_ne by done. rewrite (IH3 Hnd).
        destruct (list_find (λ e0, elementIndexOf view e0 = k) pre) as [[i x]|] eqn:Hf.
        -- by rewrite (list_find_app_l _ _ _ _ _ Hf).
        -- rewrite list_find_app_r by done. simpl. by rewrite decide_False.
Qed.

End LinearSpace.

Section LinearSpaceTheorems.

Import BemppLinear.

Lemma assignDofs_maps (sp : PiecewiseLinearContinuousScalarSpace) :
  let view := m_view sp in
  let d := m_gridDim sp in
  m_view (assignDofs sp) = view ∧
  m_gridDim (assignDofs sp) = d ∧
  length (m_global2localDofs (assignDofs sp)) = entityCount view d ∧
  (∀ g, m_global2localDofs (assignDofs sp) !! g =
        if decide (g < entityCount view d)
        then Some (localDofsAt view d (entities view) g) else None) ∧
  (NoDup (elementIndexOf view <$> entities view) →
   ∀ k, m_local2globalDofs (assignDofs sp) !! k =
        (λ p, vertexIndices view d p.2)
          <$> list_find (λ e, elementIndexOf view e = k) (entities view)).
Proof.
  cbv zeta. unfold assignDofs, domainDimension. simpl.
  destruct (assignDofs_loop (m_view sp) (m_gridDim sp)
              (entityCount (m_view sp) (m_gridDim sp)) (entities (m_view sp)))
    as (H1 & H2 & H3).
  split; [done|]. split; [done|]. split; [done|]. split; [|done].
  intros g. rewrite H2. case_decide as Hg.
  - by rewrite lookup_replicate_2.
  - by rewrite lookup_ge_None_2 by (rewrite length_replicate; lia).
Qed.

Lemma NoDup_fmap_elem_inj {A B} (f : A → B) (l : list A) (x y : A) :
  NoDup (f <$> l) → x ∈ l → y ∈ l → f x = f y → x = y.
Proof.
  intros Hnd [i Hi]%list_elem_of_lookup [j Hj]%list_elem_of_lookup Heq.
  assert (i = j) as ->; [|congruence].
  apply (NoDup_lookup (f <$> l) i j (f x)); [done|..].
  - by rewrite list_lookup_fmap, Hi.
  - by rewrite list_lookup_fmap, Hj, Heq.
Qed.

Lemma globalDofs_visited (sp : PiecewiseLinearContinuousScalarSpace) (e : Entity) :
  NoDup (elementIndexOf (m_view sp) <$> entities (m_view sp)) →
  e ∈ entities (m_view sp) →
  globalDofs (assignDofs sp) e = vertexIndices (m_view sp) (m_gridDim sp) e.
Proof.
  intros Hnd He.
  destruct (assignDofs_maps sp) as (Hv & _ & _ & _ & Hl2g).
  unfold globalDofs. rewrite Hv, (Hl2g Hnd).
  destruct (list_find_elem_of (λ e', elementIndexOf (m_view sp) e'
                                     = elementIndexOf (m_view sp) e)
              (entities (m_view sp)) e He eq_refl) as [[i x] Hf].
  rewrite Hf. simpl.
  apply list_find_Some in Hf as (Hx & Hkey & _).
  f_equal. apply (NoDup_fmap_elem_inj (elementIndexOf (m_view sp))
                    (entities (m_view sp))); [done| |done|done].
  by eapply list_elem_of_lookup_2.
Qed.

(** X17. After [assignDofs] there are as many global degrees of freedom
    as the view has vertices, so [dofsAssigned] holds, whatever the
    space held before; the view and the dimension are not touched. *)
Theorem dofsAssigned_after_assignDofs (sp : PiecewiseLinearContinuousScalarSpace) :
  globalDofCount (assignDofs sp) = entityCount (m_view sp) (m_gridDim sp) ∧
  dofsAssigned (assignDofs sp) = true ∧
  m_view (assignDofs sp) = m_view sp ∧
  domainDimension (assignDofs sp) = domainDimension sp.
Proof.
  destruct (assignDofs_maps sp) as (Hv & Hd & Hlen & _).
  unfold dofsAssigned, globalDofCount, domainDimension.
  rewrite Hv, Hd, Hlen, Nat.eqb_refl. done.
Qed.

(** X18. The constructor accepts exactly the grids of dimension 1 and
    2 and throws [invalid_argument] for the others. It assigns nothing:
    the new space has no global degree of freedom, reports the empty
    vector for every element, and [dofsAssigned] holds for it only over
    a view without vertices. *)
Theorem constructor_assigns_nothing (gridDim : nat) (leafView : GridView) :
  match PiecewiseLinearContinuousScalarSpace_new gridDim leafView with
  | inr sp =>
      (gridDim = 1 ∨ gridDim = 2) ∧
      globalDofCount sp = 0 ∧
      (∀ e, globalDofs sp e = []) ∧
      (dofsAssigned sp = true ↔ entityCount leafView gridDim = 0)
  | inl e =>
      gridDim ≠ 1 ∧ gridDim ≠ 2 ∧
      e = invalid_argument
            "PiecewiseLinearContinuousScalarSpace::PiecewiseLinearContinuousScalarSpace(): only 1- and 2-dimensional grids are supported"
  end.
Proof.
  unfold PiecewiseLinearContinuousScalarSpace_new.
  assert (∀ sp : PiecewiseLinearContinuousScalarSpace,
            m_global2localDofs sp = [] → m_local2globalDofs sp = ∅ →
            globalDofCount sp = 0 ∧ (∀ e, globalDofs sp e = []) ∧
            (dofsAssigned sp = true
             ↔ entityCount (m_view sp) (m_gridDim sp) = 0)) as Hfresh.
  { intros sp Hg Hl. unfold dofsAssigned, globalDofCount, globalDofs, domainDimension.
    rewrite Hg, Hl. split; [done|]. split.
    - intros e. by rewrite lookup_empty.
    - rewrite Nat.eqb_eq. simpl. lia. }
  destruct (decide (gridDim = 1)) as [->|H1]; [split; [by left|by apply Hfresh]|].
  destruct (decide (gridDim = 2)) as [->|H2]; [split; [by right|by apply Hfresh]|].
  rewrite (proj2 (Nat.eqb_neq _ _) H1), (proj2 (Nat.eqb_neq _ _) H2). done.
Qed.

(** X19. The local-to-global map after [assignDofs], over a view that
    files no two elements under the same key: [globalDofs] of a visited
    element lists the indices of its vertices in local order, one per
    vertex; [globalDofs] of an element whose key was not visited is the
    empty vector. *)
Theorem globalDofs_after_assignDofs (sp : PiecewiseLinearContinuousScalarSpace) :
  let view := m_view sp in
  NoDup (elementIndexOf view <$> entities view) →
  (∀ e, e ∈ entities view →
     globalDofs (assignDofs sp) e = vertexIndices view (m_gridDim sp) e ∧
     length (globalDofs (assignDofs sp) e) = vertexCountOf (m_gridDim sp) e) ∧
  (∀ e, elementIndexOf view e ∉ elementIndexOf view <$> entities view →
     globalDofs (assignDofs sp) e = []).
Proof.
  intros view Hnd. split.
  - intros e He. rewrite (globalDofs_visited sp e Hnd He). split; [done|].
    unfold vertexIndices. by rewrite length_fmap, length_seq.
  - intros e He.
    destruct (assignDofs_maps sp) as (Hv & _ & _ & _ & Hl2g).
    unfold globalDofs. rewrite Hv, (Hl2g Hnd).
    rewrite (proj2 (list_find_None _ _)); [done|].
    apply Forall_forall. intros e' He' Heq. apply He. fold view in Heq.
    rewrite <-Heq. by apply list_elem_of_fmap_2.
Qed.

(** X20. The global-to-local vector after [assignDofs]: its entry [g],
    for [g] below the number of vertices, lists exactly the local
    degrees of freedom (key of the element, number of the vertex) whose
    vertex has the index [g], elements in the order of the visit and
    vertices in local order; there is no entry from that number on. *)
Theorem global2local_after_assignDofs (sp : PiecewiseLinearContinuousScalarSpace)
    (g : GlobalDofIndex) :
  let view := m_view sp in
  let d := m_gridDim sp in
  global2localDofs (assignDofs sp) [g] =
  if decide (g < entityCount view d)
  then Some [localDofsAt view d (entities view) g] else None.
Proof.
  cbv zeta. destruct (assignDofs_maps sp) as (_ & _ & _ & Hg2l & _).
  unfold global2localDofs. simpl. rewrite Hg2l. by case_decide.
Qed.

(** X21. From local to global and back: over a well-numbered view, the
    global degree of freedom that [globalDofs] gives to the vertex [i]
    of a visited element has, in [global2localDofs], that very local
    degree of freedom among its local ones. *)
Theorem linear_local_global_local (sp : PiecewiseLinearContinuousScalarSpace)
    (e : Entity) (i : nat) :
  let view := m_view sp in
  let d := m_gridDim sp in
  GridView_wf d view →
  e ∈ entities view →
  i < vertexCountOf d e →
  ∃ g l, globalDofs (assignDofs sp) e !! i = Some g ∧
         global2localDofs (assignDofs sp) [g] = Some [l] ∧
         {| entityIndex := elementIndexOf view e; dofIndex := i |} ∈ l.
Proof.
  intros view d [Hnd Hlt] He Hi.
  exists (IndexSet_subEntityIndex (indexSet view) e i d),
         (localDofsAt view d (entities view)
            (IndexSet_subEntityIndex (indexSet view) e i d)).
  split; [|split].
  - rewrite (globalDofs_visited sp e Hnd He). unfold vertexIndices. fold view d.
    rewrite list_lookup_fmap, lookup_seq_lt by done. done.
  - destruct (assignDofs_maps sp) as (_ & _ & _ & Hg2l & _).
    unfold global2localDofs. simpl. rewrite Hg2l. fold view d.
    rewrite decide_True; [done|]. by apply Hlt.
  - unfold localDofsAt. apply list_elem_of_bind. exists e. split; [|done].
    apply list_elem_of_fmap. exists i. split; [done|].
    apply list_elem_of_filter. split; [done|]. apply elem_of_seq. lia.
Qed.

(** X22. From global to local and back: over a view that files no two
    elements under the same key, every local degree of freedom that
    [global2localDofs] lists under [g] names a visited element and one
    of its vertices, and [globalDofs] of that element gives [g] to that
    vertex. *)
Theorem linear_global_local_global (sp : PiecewiseLinearContinuousScalarSpace)
    (g : GlobalDofIndex) (l : list LocalDof) (ld : LocalDof) :
  let view := m_view sp in
  NoDup (elementIndexOf view <$> entities view) →
  global2localDofs (assignDofs sp) [g] = Some [l] →
  ld ∈ l →
  ∃ e, e ∈ entities view ∧
       entityIndex ld = elementIndexOf view e ∧
       dofIndex ld < vertexCountOf (m_gridDim sp) e ∧
       globalDofs (assignDofs sp) e !! dofIndex ld = Some g.
Proof.
  intros view Hnd Hl Hld.
  rewrite global2local_after_assignDofs in Hl. fold view in Hl.
  case_decide as Hg; [|done]. injection Hl as <-.
  apply list_elem_of_bind in Hld as (e & Hld & He).
  apply list_elem_of_fmap in Hld as (i & -> & Hi).
  apply list_elem_of_filter in Hi as [Hgi [_ Hi]%elem_of_seq].
  exists e. split; [done|]. split; [done|]. simpl. split; [lia|].
  rewrite (globalDofs_visited sp e Hnd He). unfold vertexIndices. fold view.
  rewrite list_lookup_fmap, lookup_seq_lt by lia. simpl. by rewrite Hgi.
Qed.

(** X23. [setElementVariant] leaves the space as it is. It returns
    exactly when [elementVariant] returns the given variant; when the
    geometry type of the element is none of line, triangle and
    quadrilateral, the error of [elementVariant] comes out instead of
    its own. The variants are 2, 3 and 4. *)
Theorem linear_setElementVariant_spec (sp : PiecewiseLinearContinuousScalarSpace)
    (element : Entity) (variant : ElementVariant) :
  (setElementVariant element variant sp).2 = sp ∧
  ((setElementVariant element variant sp).1 = inr ()
   ↔ elementVariant element = inr variant) ∧
  (∀ e, elementVariant element = inl e →
        (setElementVariant element variant sp).1 = inl e) ∧
  (∀ v, elementVariant element = inr v → v = 2%Z ∨ v = 3%Z ∨ v = 4%Z).
Proof.
  unfold setElementVariant.
  destruct (elementVariant element) as [e|v] eqn:Hv.
  - repeat split; try done. intros e' He'. by simplify_eq.
  - assert (v = 2%Z ∨ v = 3%Z ∨ v = 4%Z) as Hrange.
    { unfold elementVariant in Hv. repeat case_match; simplify_eq; auto. }
    destruct (variant =? v)%Z eqn:E; simpl.
    + apply Z.eqb_eq in E. subst. repeat split; try done.
      intros v' Hv'. by simplify_eq.
    + apply Z.eqb_neq in E. repeat split; try done.
      * intros Heq. by simplify_eq.
      * intros v' Hv'. by simplify_eq.
Qed.

Lemma getBases_switch_line (v : ElementVariant) (b : option Basis) :
  v = 2%Z ∨ v = 3%Z ∨ v = 4%Z → getBases_switch v b = Some m_lineBasis.
Proof. by intros [-> | [-> | ->]]. Qed.

(** X24. [getBases] never hands out the triangle or the quadrilateral
    basis: because no case of its [switch] ends in a [break], its
    vector ends up holding the line basis for every element, whatever
    the variant of the element, as long as every element has a valid
    geometry type. *)
Theorem getBases_only_line (elements : list Entity) (bases : list (option Basis)) :
  (∀ e, e ∈ elements → ∃ v, elementVariant e = inr v) →
  getBases elements bases = inr (replicate (length elements) (Some m_lineBasis)).
Proof.
  intros Hvalid. unfold getBases.
  set (b0 := resize (length elements) None bases).
  assert (length b0 = length elements) as Hb0 by apply length_resize.
  enough (∀ m, m ≤ length elements →
            foldl (λ acc i,
                     match acc with
                     | inl e => inl e
                     | inr bases =>
                         match elements !! i with
                         | None => inr bases
                         | Some element =>
                             match elementVariant element with
                             | inl e => inl e
                             | inr v => inr (alter (getBases_switch v) i bases)
                             end
                         end
                     end) (inr b0) (seq 0 m)
            = inr (replicate m (Some m_lineBasis) ++ drop m b0)) as Hpre.
  { rewrite (Hpre (length elements)) by done.
    rewrite drop_ge by lia. by rewrite app_nil_r. }
  induction m as [|m IH]; intros Hm; [by rewrite drop_0|].
  rewrite seq_S, foldl_app, IH by lia. simpl.
  destruct (lookup_lt_is_Some_2 elements m) as [e He]; [lia|].
  rewrite He.
  destruct (Hvalid e) as [v Hv]; [by eapply list_elem_of_lookup_2|].
  rewrite Hv. f_equal.
  destruct (lookup_lt_is_Some_2 b0 m) as [x Hx]; [lia|].
  rewrite alter_app_r_alt by (rewrite length_replicate; lia).
  rewrite length_replicate, Nat.sub_diag, (drop_S _ _ _ Hx). simpl.
  rewrite getBases_switch_line.
  - by rewrite (cons_middle (Some m_lineBasis)), app_assoc, <-replicate_cons_app.
  - unfold elementVariant in Hv. repeat case_match; simplify_eq; auto.
Qed.

End LinearSpaceTheorems.

Section LinearSpaceRuns.

Import BemppLinear Examples.

Lemma linView_wf : GridView_wf 2 linView.
Proof.
  split.
  - apply (bool_decide_unpack _). by vm_compute.
  - intros e i He Hi. simpl in He.
    repeat (apply elem_of_cons in He as [->|He]);
      [change (i < 3) in Hi; destruct i as [|[|[|i]]]; [vm_compute; lia..|lia]..|].
    by apply elem_of_nil in He.
Qed.

Example assignDofs_run :
  globalDofs (assignDofs linSpace) (linElement 1) = [1; 3; 2] ∧
  global2localDofs (assignDofs linSpace) [1] =
    Some [[ {| entityIndex := (triangleL, 0); dofIndex := 1 |};
            {| entityIndex := (triangleL, 1); dofIndex := 0 |} ]] ∧
  global2localDofs (assignDofs linSpace) [4] = None.
Proof. by vm_compute. Qed.

Lemma globalDofs_after_assignDofs_witness :
  globalDofs (assignDofs linSpace) (linElement 1) = vertexIndices linView 2 (linElement 1) ∧
  length (globalDofs (assignDofs linSpace) (linElement 1)) = 3.
Proof.
  apply (globalDofs_after_assignDofs linSpace).
  - apply linView_wf.
  - vm_compute. right. left.
Defined.

Lemma linear_local_global_local_witness :
  ∃ g l, globalDofs (assignDofs linSpace) (linElement 1) !! 2 = Some g ∧
         global2localDofs (assignDofs linSpace) [g] = Some [l] ∧
         {| entityIndex := elementIndexOf linView (linElement 1); dofIndex := 2 |} ∈ l.
Proof.
  apply (linear_local_global_local linSpace (linElement 1) 2).
  - apply linView_wf.
  - vm_compute. right. left.
  - vm_compute. lia.
Defined.

Lemma linear_global_local_global_witness :
  ∃ e, e ∈ entities linView ∧
       (triangleL, 0) = elementIndexOf linView e ∧
       1 < vertexCountOf 2 e ∧
       globalDofs (assignDofs linSpace) e !! 1 = Some 1.
Proof.
  apply (linear_global_local_global linSpace 1
           [ {| entityIndex := (triangleL, 0); dofIndex := 1 |};
             {| entityIndex := (triangleL, 1); dofIndex := 0 |} ]
           {| entityIndex := (triangleL, 0); dofIndex := 1 |}).
  - apply linView_wf.
  - by vm_compute.
  - left.
Defined.

Lemma getBases_only_line_witness :
  getBases [linElement 0; linElement 1] [] =
  inr (replicate 2 (Some m_lineBasis)).
Proof.
  apply (getBases_only_line [linElement 0; linElement 1] []).
  intros e He.
  repeat (apply elem_of_cons in He as [->|He]); [by eexists..|].
  by apply elem_of_nil in He.
Defined.

(** And yet [basis] gives a triangle its own basis. *)
Example basis_of_triangle : basis (linElement 0) = inr (Some m_triangleBasis).
Proof. reflexivity. Qed.

End LinearSpaceRuns.
